(** * Cybsi SDK: request building, version parsing and pagination

    A shallow embedding of the client library's request builders
    ([cybsi/api/enrichment/external_dbs.py],
    [cybsi/api/observable/entities_api.py], [cybsi/api/observable/enums.py]
    and [cybsi/api/client.py]) together with the properties of the
    bindings that the specification states.

    Python dictionaries with string keys are finite maps [gmap string _];
    [None] is [option]'s [None]; raised exceptions are the [Err] branch of
    [result]; the HTTP connector is a state-passing computation over the
    log of requests that were issued. *)

From stdpp Require Import base strings list gmap pretty.
From Stdlib Require Import ZArith Ascii PrimFloat.

Local Open Scope Z_scope.

(** ** Exceptions and results *)

Inductive exn : Type :=
| KeyError (key : string)
| ValueError (msg : string)
| CybsiError (msg : string)
| HTTPError (status : Z)
| AttributeError (cls : string) (attr : string).

Inductive result (A : Type) : Type :=
| Ok (a : A)
| Err (e : exn).
Arguments Ok {A} a.
Arguments Err {A} e.

Definition result_map {A B : Type} (f : A → B) (r : result A) : result B :=
  match r with
  | Ok a => Ok (f a)
  | Err e => Err e
  end.

Definition result_bind {A B : Type} (r : result A) (f : A → result B) : result B :=
  match r with
  | Ok a => f a
  | Err e => Err e
  end.

Definition is_ok {A : Type} (r : result A) : bool :=
  match r with
  | Ok _ => true
  | Err _ => false
  end.

#[export] Instance result_ret : MRet result := @Ok.
#[export] Instance result_mbind : MBind result := λ A B f r, result_bind r f.

Fixpoint result_mapM {A B : Type} (f : A → result B) (l : list A)
  : result (list B) :=
  match l with
  | [] => Ok []
  | x :: l' => y ← f x; ys ← result_mapM f l'; mret (y :: ys)
  end.

(** ** JSON values, as [json=] bodies and [resp.json()] carry them *)

#[warnings="-register-all"] Inductive json : Type :=
| JNull
| JBool (b : bool)
| JInt (n : Z)
| JStr (s : string)
| JList (l : list json).

(** ** Enumerations ([cybsi/api/observable/enums.py])

    Every enumeration derives from [CybsiAPIEnum]; a member has a Python
    name (the identifier on the left of [=]) and a value (the string on
    the right), which is the server-side spelling. *)

Class CybsiAPIEnum (E : Type) := {
  name : E → string;
  value : E → string;
  members : list E
}.

Module Enums.

Inductive EntityTypes : Type :=
| IPAddress | DomainName | File | EmailAddress | PhoneNumber | Identity | URL.

Inductive EntityKeyTypes : Type :=
| String_ | MD5 | SHA1 | SHA256 | IANAID | NICHandle.

Inductive AttributeNames : Type :=
| Class_ | RegistrationCountry | DisplayNames | IsIoC | IsTrusted | Names
| NodeRoles | Sectors | Size | IsDGA | MalwareClasses | MalwareFamilies
| RelatedMalwareFamilies | IsDelegated | Statuses | ASN
| RegionalInternetRegistry | ThreatCategory | RelatedThreatCategory
| MalwareNames | Campaigns | ThreatActors | AffectedCountries
| ExploitedVulnerabilities | TargetedSectors | PotentialDamage | Platforms
| Tactics | Techniques.

Inductive RelationshipKinds : Type :=
| Has | Contains | BelongsTo | ConnectsTo | Drops | Uses | Owns | Supports
| ResolvesTo | VariantOf | Hosts | Serves | Locates.

Inductive EntityAggregateSections : Type :=
| AssociatedAttributes | NaturalAttributes | Threat | GeoIP | Labels.

Inductive LinkDirection : Type :=
| Forward | Reverse.

#[export] Instance EntityTypes_enum : CybsiAPIEnum EntityTypes := {|
  name t := match t with
    | IPAddress => "IPAddress" | DomainName => "DomainName" | File => "File"
    | EmailAddress => "EmailAddress" | PhoneNumber => "PhoneNumber"
    | Identity => "Identity" | URL => "URL"
    end;
  value t := match t with
    | IPAddress => "IPAddress" | DomainName => "DomainName" | File => "File"
    | EmailAddress => "EmailAddress" | PhoneNumber => "PhoneNumber"
    | Identity => "Identity" | URL => "URL"
    end;
  members :=
    [IPAddress; DomainName; File; EmailAddress; PhoneNumber; Identity; URL]
|}.

#[export] Instance EntityKeyTypes_enum : CybsiAPIEnum EntityKeyTypes := {|
  name t := match t with
    | String_ => "String" | MD5 => "MD5" | SHA1 => "SHA1"
    | SHA256 => "SHA256" | IANAID => "IANAID" | NICHandle => "NICHandle"
    end;
  value t := match t with
    | String_ => "String" | MD5 => "MD5Hash" | SHA1 => "SHA1Hash"
    | SHA256 => "SHA256Hash" | IANAID => "IANAID" | NICHandle => "NICHandle"
    end;
  members := [String_; MD5; SHA1; SHA256; IANAID; NICHandle]
|}.

Definition AttributeNames_str (a : AttributeNames) : string :=
  match a with
  | Class_ => "Class" | RegistrationCountry => "RegistrationCountry"
  | DisplayNames => "DisplayNames" | IsIoC => "IsIoC"
  | IsTrusted => "IsTrusted" | Names => "Names" | NodeRoles => "NodeRoles"
  | Sectors => "Sectors" | Size => "Size" | IsDGA => "IsDGA"
  | MalwareClasses => "MalwareClasses" | MalwareFamilies => "MalwareFamilies"
  | RelatedMalwareFamilies => "RelatedMalwareFamilies"
  | IsDelegated => "IsDelegated" | Statuses => "Statuses" | ASN => "ASN"
  | RegionalInternetRegistry => "RegionalInternetRegistry"
  | ThreatCategory => "ThreatCategory"
  | RelatedThreatCategory => "RelatedThreatCategory"
  | MalwareNames => "MalwareNames" | Campaigns => "Campaigns"
  | ThreatActors => "ThreatActors" | AffectedCountries => "AffectedCountries"
  | ExploitedVulnerabilities => "ExploitedVulnerabilities"
  | TargetedSectors => "TargetedSectors"
  | PotentialDamage => "PotentialDamage" | Platforms => "Platforms"
  | Tactics => "Tactics" | Techniques => "Techniques"
  end.

(** Every member of [AttributeNames] is declared as [X = "X"]: name and
    value are the same string. *)
#[export] Instance AttributeNames_enum : CybsiAPIEnum AttributeNames := {|
  name := AttributeNames_str;
  value := AttributeNames_str;
  members :=
    [Class_; RegistrationCountry; DisplayNames; IsIoC; IsTrusted; Names;
     NodeRoles; Sectors; Size; IsDGA; MalwareClasses; MalwareFamilies;
     RelatedMalwareFamilies; IsDelegated; Statuses; ASN;
     RegionalInternetRegistry; ThreatCategory; RelatedThreatCategory;
     MalwareNames; Campaigns; ThreatActors; AffectedCountries;
     ExploitedVulnerabilities; TargetedSectors; PotentialDamage; Platforms;
     Tactics; Techniques]
|}.

Definition RelationshipKinds_str (k : RelationshipKinds) : string :=
  match k with
  | Has => "Has" | Contains => "Contains" | BelongsTo => "BelongsTo"
  | ConnectsTo => "ConnectsTo" | Drops => "Drops" | Uses => "Uses"
  | Owns => "Owns" | Supports => "Supports" | ResolvesTo => "ResolvesTo"
  | VariantOf => "VariantOf" | Hosts => "Hosts" | Serves => "Serves"
  | Locates => "Locates"
  end.

#[export] Instance RelationshipKinds_enum : CybsiAPIEnum RelationshipKinds := {|
  name := RelationshipKinds_str;
  value := RelationshipKinds_str;
  members :=
    [Has; Contains; BelongsTo; ConnectsTo; Drops; Uses; Owns; Supports;
     ResolvesTo; VariantOf; Hosts; Serves; Locates]
|}.

Definition EntityAggregateSections_str (s : EntityAggregateSections) : string :=
  match s with
  | AssociatedAttributes => "AssociatedAttributes"
  | NaturalAttributes => "NaturalAttributes"
  | Threat => "Threat" | GeoIP => "GeoIP" | Labels => "Labels"
  end.

#[export] Instance EntityAggregateSections_enum :
  CybsiAPIEnum EntityAggregateSections := {|
  name := EntityAggregateSections_str;
  value := EntityAggregateSections_str;
  members :=
    [AssociatedAttributes; NaturalAttributes; Threat; GeoIP; Labels]
|}.

#[export] Instance LinkDirection_enum : CybsiAPIEnum LinkDirection := {|
  name d := match d with Forward => "Forward" | Reverse => "Reverse" end;
  value d := match d with Forward => "Forward" | Reverse => "Reverse" end;
  members := [Forward; Reverse]
|}.

End Enums.
Import Enums.

(** ** Values from Python's standard library *)

(** [uuid.UUID]: a 128-bit integer; [str] prints it as 32 lower-case
    hexadecimal digits in groups of 8-4-4-4-12. *)
Record UUID : Type := { uuid_int : N }.

Definition hex_digit (n : N) : ascii :=
  match n with
  | 0 => "0" | 1 => "1" | 2 => "2" | 3 => "3" | 4 => "4" | 5 => "5"
  | 6 => "6" | 7 => "7" | 8 => "8" | 9 => "9" | 10 => "a" | 11 => "b"
  | 12 => "c" | 13 => "d" | 14 => "e" | _ => "f"
  end%N%char.

Fixpoint hex_fixed (width : nat) (n : N) (acc : string) : string :=
  match width with
  | O => acc
  | S w => hex_fixed w (N.shiftr n 4) (String (hex_digit (N.land n 15)) acc)
  end.

Definition UUID_str (u : UUID) : string :=
  let h := hex_fixed 32 (uuid_int u) "" in
  String.substring 0 8 h +:+ "-" +:+ String.substring 8 4 h +:+ "-" +:+
  String.substring 12 4 h +:+ "-" +:+ String.substring 16 4 h +:+ "-" +:+
  String.substring 20 12 h.

(** ** The HTTP connector

    A request is what the API handles hand to [do_get], [do_patch], ...:
    a method, a path, the [params=] dictionary, the [tag=] argument and
    the [json=] body. *)

Inductive param : Type :=
| PStr (s : string)
| PInt (n : Z)
| PBool (b : bool)
| PFloat (f : PrimFloat.float)
| PStrs (l : list string)
| PUuids (l : list UUID).

Inductive method : Type := GET | POST | PUT | PATCH.

(** Modelled from the spec: [Tag] and [Cursor] of [cybsi/api/api.py] and
    [cybsi/api/pagination.py] are not among the sources; the spec calls
    the cursor an opaque continuation token, the tag is the value of
    [ExternalDBView.tag] handed back on edit. Both are strings. *)
Definition Tag : Type := string.
Definition Cursor : Type := string.

Record request : Type := {
  req_method : method;
  req_path : string;
  req_params : gmap string param;
  req_tag : option Tag;
  req_json : option (gmap string json)
}.

(** What the server sends back: a JSON document and, for a paginated
    resource, the cursor of the next page when there is one. *)
Record answer : Type := {
  ans_json : json;
  ans_cursor : option Cursor
}.

(** The response object the connector returns: the answer together with
    the path it was requested from. *)
Record response : Type := {
  resp_url : string;
  resp_json : json;
  resp_cursor : option Cursor
}.

Definition response_of (path : string) (a : answer) : response :=
  {| resp_url := path; resp_json := ans_json a; resp_cursor := ans_cursor a |}.

(** An API call runs against the log of requests issued so far, and either
    returns or raises. *)
Definition api (A : Type) : Type := list request → result A * list request.

Definition ret {A : Type} (a : A) : api A := λ log, (Ok a, log).

Definition raise {A : Type} (e : exn) : api A := λ log, (Err e, log).

Definition bind {A B : Type} (f : A → api B) (m : api A) : api B :=
  λ log,
    match m log with
    | (Ok a, log') => f a log'
    | (Err e, log') => (Err e, log')
    end.

#[export] Instance api_ret : MRet api := @ret.
#[export] Instance api_bind : MBind api := @bind.

Module Http.
Section Connector.

(** The remote API: what the server answers to a request. *)
Variable server : request → result answer.

(** Modelled from the spec: [HTTPConnector] of [cybsi/api/internal] is not
    among the sources; per the spec it issues the HTTP request. Issuing a
    request appends it to the log and returns the server's answer, or
    raises the server's error. *)
Definition send (r : request) : api response :=
  λ log, (result_map (response_of (req_path r)) (server r), log ++ [r]).

Definition do_get (path : string) (params : gmap string param) : api response :=
  send {| req_method := GET; req_path := path; req_params := params;
          req_tag := None; req_json := None |}.

Definition do_patch (path : string) (tag : Tag) (form : gmap string json)
  : api response :=
  send {| req_method := PATCH; req_path := path; req_params := ∅;
          req_tag := Some tag; req_json := Some form |}.

Definition do_post (path : string) (form : gmap string json) : api response :=
  send {| req_method := POST; req_path := path; req_params := ∅;
          req_tag := None; req_json := Some form |}.

End Connector.
End Http.

(** ** External databases ([cybsi/api/enrichment/external_dbs.py]) *)

(** Modelled from the spec: [Nullable], [Null] and [_unwrap_nullable] of
    [cybsi/api/api.py] are not among the sources. Per the spec a nullable
    argument has three states: [None] leaves the field unchanged, the
    explicit-null sentinel clears it, a value sets it. An argument that is
    not [None] is either the sentinel [Null] or a value [Val v];
    [_unwrap_nullable] turns the sentinel into Python's [None], which the
    JSON encoder writes as [null], and hands a value back as it is. *)
Inductive NullOr (T : Type) : Type :=
| Null
| Val (v : T).
Arguments Null {T}.
Arguments Val {T} v.

Definition Nullable (T : Type) : Type := option (NullOr T).

Definition _unwrap_nullable {T : Type} (v : NullOr T) : option T :=
  match v with
  | Null => None
  | Val x => Some x
  end.

(** What the JSON encoder writes for an [Optional] value. *)
Definition json_optional {T : Type} (enc : T → json) (o : option T) : json :=
  match o with
  | None => JNull
  | Some x => enc x
  end.

Module ExternalDBs.
Import Enums.

Definition _path : string := "/enrichment/external-dbs".

Section API.

Variable server : request → result answer.

(** [ExternalDBsAPI.edit] *)
Definition edit_form
    (entity_types : option (list EntityTypes))
    (web_page_url : Nullable string)
    (task_execution_timeout : Nullable Z)
    (task_execution_attempts_count : Nullable Z) : gmap string json :=
  let form : gmap string json := ∅ in
  let form :=
    match entity_types with
    | Some ts => <["entityTypes" := JList ((λ t, JStr (value t)) <$> ts)]> form
    | None => form
    end in
  let form :=
    match web_page_url with
    | Some u => <["webPageURL" := json_optional JStr (_unwrap_nullable u)]> form
    | None => form
    end in
  let form :=
    match task_execution_timeout with
    | Some t =>
        <["taskExecutionTimeout" := json_optional JInt (_unwrap_nullable t)]> form
    | None => form
    end in
  let form :=
    match task_execution_attempts_count with
    | Some c =>
        <["taskExecutionAttemptsCount" :=
            json_optional JInt (_unwrap_nullable c)]> form
    | None => form
    end in
  form.

Definition edit
    (db_uuid : UUID) (tag : Tag)
    (entity_types : option (list EntityTypes))
    (web_page_url : Nullable string)
    (task_execution_timeout : Nullable Z)
    (task_execution_attempts_count : Nullable Z) : api unit :=
  let form :=
    edit_form entity_types web_page_url task_execution_timeout
      task_execution_attempts_count in
  let path := _path +:+ "/" +:+ UUID_str db_uuid in
  _ ← Http.do_patch server path tag form;
  mret tt.

End API.

(** [ExternalDBForm.__init__]: the form starts from the empty [_data] of
    [JsonObjectForm] and fills it. *)
Definition ExternalDBForm
    (data_source_uuid : UUID)
    (entity_types : list EntityTypes)
    (web_page_url : option string)
    (task_execution_timeout : option Z)
    (task_execution_attempts_count : option Z) : gmap string json :=
  let _data : gmap string json := ∅ in
  let _data := <["dataSourceUUID" := JStr (UUID_str data_source_uuid)]> _data in
  let _data :=
    <["entityTypes" := JList ((λ typ, JStr (value typ)) <$> entity_types)]> _data in
  let _data :=
    match web_page_url with
    | Some u => <["webPageURL" := JStr u]> _data
    | None => _data
    end in
  let _data :=
    match task_execution_timeout with
    | Some t => <["taskExecutionTimeout" := JInt t]> _data
    | None => _data
    end in
  let _data :=
    match task_execution_attempts_count with
    | Some c => <["taskExecutionAttemptsCount" := JInt c]> _data
    | None => _data
    end in
  _data.

End ExternalDBs.

(** ** Pagination *)

(** Python truthiness of the values tested with a bare [if x:]. *)
Class Truthy (A : Type) := truthy : A → bool.
#[export] Instance string_truthy : Truthy string := λ s, negb (String.eqb s "").
#[export] Instance Z_truthy : Truthy Z := λ n, negb (n =? 0).

Module Pagination.

(** Modelled from the spec: [Page] and [chain_pages] of
    [cybsi/api/pagination.py] are not among the sources. Per the spec a
    page wraps a server response that holds an opaque continuation token,
    and the sequence of items is produced lazily by repeatedly issuing the
    next GET with the returned cursor until the server omits one. The
    constructor takes the API call, the response and the view, as in
    [Page(self._connector.do_get, r, EntityAggregateView)]. *)
Record Page (T : Type) : Type := mkPage {
  _api_call : string → gmap string param → api response;
  _resp : response;
  _view : json → T
}.
Arguments mkPage {T} _ _ _.
Arguments _api_call {T} _.
Arguments _resp {T} _.
Arguments _view {T} _.

Section Page.
Context {T : Type}.

Definition cursor (p : Page T) : option Cursor := resp_cursor (_resp p).

(** The items of the page: the elements of the JSON array of the
    response, each wrapped in the view. *)
Definition data (p : Page T) : list T :=
  match resp_json (_resp p) with
  | JList l => _view p <$> l
  | _ => []
  end.

(** The request for the page after [p]: a GET of the same path with the
    returned cursor; [None] when the server sent no cursor. *)
Definition next_page (p : Page T) : api (option (Page T)) :=
  match cursor p with
  | None => mret None
  | Some c =>
      r ← _api_call p (resp_url (_resp p)) {["cursor" := PStr c]};
      mret (Some (mkPage (_api_call p) r (_view p)))
  end.

(** The lazy sequence of items: the items of the current page that were
    not yet handed out, and the current page. *)
Record items_iter : Type := {
  pending : list T;
  current : Page T
}.

Definition chain_pages (start_page : Page T) : items_iter :=
  {| pending := data start_page; current := start_page |}.

Inductive event : Type :=
| Yield (x : T)
| Fetched
| Stop.

(** One step of the iteration: hand out a pending item; with none
    pending, fetch the next page; with no cursor either, stop. A step
    issues at most one request. *)
Definition step (it : items_iter) : api (event * items_iter) :=
  match pending it with
  | x :: rest => mret (Yield x, {| pending := rest; current := current it |})
  | [] =>
      next ← next_page (current it);
      match next with
      | None => mret (Stop, it)
      | Some p => mret (Fetched, {| pending := data p; current := p |})
      end
  end.

(** Running the iteration to its end, as [list(chain_pages(page))] does.
    [fuel] bounds the number of steps; the result is [None] when the
    iteration did not stop within it. *)
Fixpoint drain (fuel : nat) (it : items_iter) : api (option (list T)) :=
  match fuel with
  | O => mret None
  | S fuel' =>
      ev ← step it;
      match ev with
      | (Yield x, it') => rest ← drain fuel' it'; mret ((x ::.) <$> rest)
      | (Fetched, it') => drain fuel' it'
      | (Stop, _) => mret (Some [])
      end
  end.

End Page.
End Pagination.

(** ** Entities ([cybsi/api/observable/entities_api.py]) *)

Module Entities.
Import Enums Pagination.

(** The views of [cybsi/api/observable/entity.py] and [links.py] wrap the
    JSON document of the response. *)
Record EntityAggregateView : Type := { aggregate_json : json }.
Record EntityKeyView : Type := { key_json : json }.
Record EntityAttributeForecastView : Type := { attribute_forecast_json : json }.
Record EntityLinksForecastView : Type := { links_forecast_json : json }.
Record EntityLinkStatisticView : Type := { link_statistic_json : json }.

#[export] Instance AttributeNames_eq_dec : EqDecision AttributeNames.
Proof. solve_decision. Defined.

(** Attribute access on the enumeration class, as in
    [AttributeNames.Size]: the member of that name, [AttributeError] when
    the class has none. *)
Definition AttributeNames_getattr (attr : string) : result AttributeNames :=
  match find (λ m, String.eqb (name m) attr) members with
  | Some m => Ok m
  | None => Err (AttributeError "AttributeNames" attr)
  end.

(** A dictionary with enumeration members as keys: setting a key
    replaces its value or adds the key, a subscript finds the value. *)
Fixpoint dict_set {K V : Type} `{EqDecision K} (k : K) (v : V)
    (d : list (K * V)) : list (K * V) :=
  match d with
  | [] => [(k, v)]
  | (k', v') :: d' =>
      if decide (k = k') then (k, v) :: d' else (k', v') :: dict_set k v d'
  end.

Fixpoint dict_get {K V : Type} `{EqDecision K} (k : K) (d : list (K * V))
  : option V :=
  match d with
  | [] => None
  | (k', v') :: d' => if decide (k = k') then Some v' else dict_get k d'
  end.

(** The entries of the dictionary literal [_attr_value_kebab_converters]
    in the order of the source: the attribute [X] of each key expression
    [AttributeNames.X], and the value. *)
Definition _attr_value_kebab_entries : list (string * string) :=
  [ ("Size", "size");
    ("Class", "class");
    ("Sectors", "sectors");
    ("DisplayNames", "display-names");
    ("Names", "names");
    ("NodeRoles", "node-roles");
    ("MalwareFamilyAliases", "malware-family-aliases");
    ("IsIoC", "is-ioc");
    ("IsTrusted", "is-trusted");
    ("IsMalicious", "is-malicious");
    ("IsDGA", "is-dga") ].

(** Evaluating the literal, which happens when the module is imported:
    the key expressions are evaluated in order, each entry is put into
    the dictionary, and the first key expression that names no member of
    [AttributeNames] raises [AttributeError]. *)
Fixpoint build_dict (entries : list (string * string))
    (d : list (AttributeNames * string))
  : result (list (AttributeNames * string)) :=
  match entries with
  | [] => Ok d
  | (attr, kebab) :: entries' =>
      key ← AttributeNames_getattr attr;
      build_dict entries' (dict_set key kebab d)
  end.

Definition _attr_value_kebab_converters
  : result (list (AttributeNames * string)) :=
  build_dict _attr_value_kebab_entries [].

(** [_convert_attribute_name_kebab]: the function can only be called in
    a module that was imported, so what the literal raised comes first;
    with a dictionary, a subscript raises [KeyError] on a missing key. *)
Definition _convert_attribute_name_kebab (attribute_name : AttributeNames)
  : result string :=
  converters ← _attr_value_kebab_converters;
  match dict_get attribute_name converters with
  | Some kebab => Ok kebab
  | None => Err (KeyError (name attribute_name))
  end.

Definition _path : string := "/observable/entities".
Definition _path_canonical_key : string := "/observable/entity-canonical-key".

Section API.

Variable server : request → result answer.

(** [datetime.datetime] and [rfc3339_timestamp] of [cybsi/api/internal],
    which is not among the sources. *)
Variable datetime : Type.
Variable rfc3339_timestamp : datetime → string.

Definition view_params
    (sections : option (list EntityAggregateSections))
    (forecast_at : option datetime)
    (with_valuable_facts : option bool) : gmap string param :=
  let params : gmap string param := ∅ in
  let params :=
    match sections with
    | Some ss => <["section" := PStrs (value <$> ss)]> params
    | None => params
    end in
  let params :=
    match forecast_at with
    | Some t => <["forecastAt" := PStr (rfc3339_timestamp t)]> params
    | None => params
    end in
  let params :=
    match with_valuable_facts with
    | Some b => <["valuableFacts" := PBool b]> params
    | None => params
    end in
  params.

(** [EntitiesAPI.view] *)
Definition view
    (entity_uuid : UUID)
    (sections : option (list EntityAggregateSections))
    (forecast_at : option datetime)
    (with_valuable_facts : option bool) : api EntityAggregateView :=
  let params := view_params sections forecast_at with_valuable_facts in
  let path := _path +:+ "/" +:+ UUID_str entity_uuid in
  r ← Http.do_get server path params;
  mret {| aggregate_json := resp_json r |}.

Definition aggregate_params
    (entity_uuids : list UUID)
    (sections : option (list EntityAggregateSections))
    (forecast_at : option datetime)
    (cursor : option Cursor)
    (limit : option Z) : gmap string param :=
  let params : gmap string param := {["uuid" := PUuids entity_uuids]} in
  let params :=
    match sections with
    | Some ss => <["section" := PStrs (value <$> ss)]> params
    | None => params
    end in
  let params :=
    match forecast_at with
    | Some t => <["forecastAt" := PStr (rfc3339_timestamp t)]> params
    | None => params
    end in
  let params :=
    match cursor with
    | Some c => if truthy c then <["cursor" := PStr c]> params else params
    | None => params
    end in
  let params :=
    match limit with
    | Some n => if truthy n then <["limit" := PInt n]> params else params
    | None => params
    end in
  params.

(** [EntitiesAPI.aggregate] *)
Definition aggregate
    (entity_uuids : list UUID)
    (sections : option (list EntityAggregateSections))
    (forecast_at : option datetime)
    (cursor : option Cursor)
    (limit : option Z) : api (Page EntityAggregateView) :=
  let params := aggregate_params entity_uuids sections forecast_at cursor limit in
  r ← Http.do_get server _path params;
  let page := mkPage (Http.do_get server) r Build_EntityAggregateView in
  mret page.

(** [EntitiesAPI.canonize_key] *)
Definition canonize_key_params
    (entity_type : EntityTypes) (key_type : EntityKeyTypes) (value_ : string)
  : gmap string param :=
  <["key" := PStr value_]>
    (<["keyType" := PStr (value key_type)]>
      (<["entityType" := PStr (value entity_type)]> ∅)).

Definition canonize_key
    (entity_type : EntityTypes) (key_type : EntityKeyTypes) (value_ : string)
  : api EntityKeyView :=
  let params := canonize_key_params entity_type key_type value_ in
  r ← Http.do_get server _path_canonical_key params;
  mret {| key_json := resp_json r |}.

Definition forecast_params (forecast_at : option datetime) : gmap string param :=
  let params : gmap string param := ∅ in
  match forecast_at with
  | Some t => <["forecastAt" := PStr (rfc3339_timestamp t)]> params
  | None => params
  end.

(** [EntitiesAPI.forecast_attribute_values]: the conversion to kebab-case
    comes before the request and may raise. *)
Definition forecast_attribute_values
    (entity_uuid : UUID) (attr_name : AttributeNames)
    (forecast_at : option datetime) : api EntityAttributeForecastView :=
  let params := forecast_params forecast_at in
  match _convert_attribute_name_kebab attr_name with
  | Err e => raise e
  | Ok kebab_attr_name =>
      let path :=
        _path +:+ "/" +:+ UUID_str entity_uuid +:+ "/attributes/" +:+
        kebab_attr_name in
      r ← Http.do_get server path params;
      mret {| attribute_forecast_json := resp_json r |}
  end.

Definition forecast_links_params
    (related_entity_types : option (list EntityTypes))
    (direction : option (list LinkDirection))
    (kind : option (list RelationshipKinds))
    (confidence_threshold : option PrimFloat.float)
    (forecast_at : option datetime)
    (cursor : option Cursor)
    (limit : option Z) : gmap string param :=
  let params : gmap string param := ∅ in
  let params :=
    match related_entity_types with
    | Some ts => <["relatedEntityType" := PStrs (value <$> ts)]> params
    | None => params
    end in
  let params :=
    match direction with
    | Some ds => <["direction" := PStrs (value <$> ds)]> params
    | None => params
    end in
  let params :=
    match kind with
    | Some ks => <["kind" := PStrs (value <$> ks)]> params
    | None => params
    end in
  let params :=
    match confidence_threshold with
    | Some c => <["confidenceThreshold" := PFloat c]> params
    | None => params
    end in
  let params :=
    match forecast_at with
    | Some t => <["forecastAt" := PStr (rfc3339_timestamp t)]> params
    | None => params
    end in
  let params :=
    match cursor with
    | Some c => if truthy c then <["cursor" := PStr c]> params else params
    | None => params
    end in
  let params :=
    match limit with
    | Some n => if truthy n then <["limit" := PStr (pretty n)]> params else params
    | None => params
    end in
  params.

(** [EntitiesAPI.forecast_links] *)
Definition forecast_links
    (entity_uuid : UUID)
    (related_entity_types : option (list EntityTypes))
    (direction : option (list LinkDirection))
    (kind : option (list RelationshipKinds))
    (confidence_threshold : option PrimFloat.float)
    (forecast_at : option datetime)
    (cursor : option Cursor)
    (limit : option Z) : api (Page EntityLinksForecastView) :=
  let params :=
    forecast_links_params related_entity_types direction kind
      confidence_threshold forecast_at cursor limit in
  let path := _path +:+ "/" +:+ UUID_str entity_uuid +:+ "/links" in
  r ← Http.do_get server path params;
  let page := mkPage (Http.do_get server) r Build_EntityLinksForecastView in
  mret page.

(** [EntitiesAPI.forecast_links_statistic] *)
Definition forecast_links_statistic
    (entity_uuid : UUID) (forecast_at : option datetime)
  : api EntityLinkStatisticView :=
  let params := forecast_params forecast_at in
  let path := _path +:+ "/" +:+ UUID_str entity_uuid +:+ "/link-type-statistic" in
  r ← Http.do_get server path params;
  mret {| link_statistic_json := resp_json r |}.

End API.
End Entities.

(** ** Python string operations used by [Version] *)

(** [c in s] for a one-character [c]. *)
Fixpoint str_contains (c : ascii) (s : string) : bool :=
  match s with
  | EmptyString => false
  | String a s' => if Ascii.eqb a c then true else str_contains c s'
  end.

Definition cons_head (a : ascii) (l : list string) : list string :=
  match l with
  | h :: t => String a h :: t
  | [] => [String a EmptyString]
  end.

(** [s.split(sep, maxsplit)] for a one-character separator. *)
Fixpoint str_split (sep : ascii) (s : string) (maxsplit : nat) : list string :=
  match s with
  | EmptyString => [EmptyString]
  | String a s' =>
      match maxsplit with
      | O => [s]
      | S m =>
          if Ascii.eqb a sep then EmptyString :: str_split sep s' m
          else cons_head a (str_split sep s' maxsplit)
      end
  end.

(** A string is a sequence of code points below 256; code points from
    256 on are outside the model. Among them the white space that [int]
    drops is tab to carriage return, the space, U+0085 and U+00A0, and
    the decimal digits are [0] to [9]. *)
Definition is_space (a : ascii) : bool :=
  let n := N_of_ascii a in
  ((9 <=? n) && (n <=? 13) || (n =? 32) || (n =? 133) || (n =? 160))%N.

Definition is_digit (a : ascii) : bool :=
  let n := N_of_ascii a in
  ((48 <=? n) && (n <=? 57))%N.

Definition digit_value (a : ascii) : Z := Z.of_N (N_of_ascii a) - 48.

Fixpoint lstrip (s : string) : string :=
  match s with
  | EmptyString => EmptyString
  | String a s' => if is_space a then lstrip s' else s
  end.

Fixpoint rstrip (s : string) : string :=
  match s with
  | EmptyString => EmptyString
  | String a s' =>
      match rstrip s' with
      | EmptyString => if is_space a then EmptyString else String a EmptyString
      | r => String a r
      end
  end.

(** The digits of an integer literal: decimal digits, with single
    underscores allowed between two digits. *)
Fixpoint int_digits (s : string) (acc : Z) (after_digit : bool) : option Z :=
  match s with
  | EmptyString => if after_digit then Some acc else None
  | String a s' =>
      if is_digit a then int_digits s' (10 * acc + digit_value a) true
      else if Ascii.eqb a "_" then
        (if after_digit then int_digits s' acc false else None)
      else None
  end.

(** The interpreter's limit on the number of digits of a decimal string
    that [int] converts ([sys.get_int_max_str_digits()], 4300 unless
    changed); signs, underscores and white space do not count. *)
Definition int_max_str_digits : nat := 4300.

Fixpoint count_digits (s : string) : nat :=
  match s with
  | EmptyString => 0
  | String a s' => (if is_digit a then 1 else 0) + count_digits s'
  end.

(** [int(s)] on a string: surrounding white space is dropped, a sign may
    come first, anything else than an integer literal raises
    [ValueError], and so does a literal of more digits than the limit.
    The texts of the messages are not modelled. *)
Definition int (s : string) : result Z :=
  let body := rstrip (lstrip s) in
  let parsed :=
    match body with
    | String "+" d => int_digits d 0 false
    | String "-" d => Z.opp <$> int_digits d 0 false
    | d => int_digits d 0 false
    end in
  match parsed with
  | Some n =>
      if (count_digits body <=? int_max_str_digits)%nat then Ok n
      else Err (ValueError "Exceeds the limit for integer string conversion")
  | None => Err (ValueError "invalid literal for int() with base 10")
  end.

(** Unpacking a list into a pair, as in [a, b = l]. *)
Definition unpack2 {A : Type} (l : list A) : result (A * A) :=
  match l with
  | [a; b] => Ok (a, b)
  | _ => Err (ValueError "unpack")
  end.

(** ** The client ([cybsi/api/client.py]) *)

Module Client.

Section Client.

(** The callables a caller may pass as [auth]. *)
Variable Callable : Type.

(** Modelled from the spec: [APIKeyAuth] of [cybsi/api/auth] is not among
    the sources; it is built from an API URL and a key, and attaches the
    key to requests. *)
Inductive Auth : Type :=
| APIKeyAuth (api_url : string) (api_key : string)
| CallableAuth (f : Callable).

Record Config : Type := {
  api_url : string;
  auth : option Auth;
  ssl_verify : bool;
  api_key : string
}.

(** Modelled from the spec: [HTTPConnector] of [cybsi/api/internal] is not
    among the sources; constructing it stores its arguments. *)
Record HTTPConnector : Type := {
  base_url : string;
  connector_auth : option Auth;
  connector_ssl_verify : bool
}.

Record CybsiClient : Type := { _connector : HTTPConnector }.

(** [CybsiClient.__init__] *)
Definition CybsiClient_init (config : Config) : api CybsiClient :=
  match auth config, truthy (api_key config) with
  | None, false =>
      raise (CybsiError "No authorization mechanism configured for client")
  | _, _ =>
      let auth' :=
        if truthy (api_key config)
        then Some (APIKeyAuth "" (api_key config))
        else auth config in
      mret {| _connector := {| base_url := api_url config;
                               connector_auth := auth';
                               connector_ssl_verify := ssl_verify config |} |}
  end.

End Client.

(** [Version] *)
Record Version : Type := {
  _version : string;
  _build : string;
  _prerelease : string;
  _major : Z;
  _minor : Z;
  _patch : Z
}.

Definition Version_init (version : string) : result Version :=
  '(p1, build) ←
    (if str_contains "+" version then unpack2 (str_split "+" version 1)
     else Ok (version, ""));
  '(core, prerelease) ←
    (if str_contains "-" p1 then unpack2 (str_split "-" p1 1)
     else Ok (p1, ""));
  parts ← result_mapM int (str_split "." core 2);
  match parts with
  | [major; minor; patch] =>
      Ok {| _version := version; _build := build; _prerelease := prerelease;
            _major := major; _minor := minor; _patch := patch |}
  | _ => Err (ValueError "unpack")
  end.

Definition Version_str (v : Version) : string := _version v.
Definition major (v : Version) : Z := _major v.
Definition minor (v : Version) : Z := _minor v.
Definition patch (v : Version) : Z := _patch v.

Definition prerelease (v : Version) : option string :=
  if negb (String.eqb (_prerelease v) "") then Some (_prerelease v) else None.

Definition build (v : Version) : option string :=
  if negb (String.eqb (_build v) "") then Some (_build v) else None.

End Client.

(** ** The other enumerations of [cybsi/api/observable/enums.py] *)

Module EnumsRest.

Module ShareLevels.
Inductive t : Type := White | Green | Amber | Red.
Definition str (x : t) : string :=
  match x with
  | White => "White" | Green => "Green" | Amber => "Amber" | Red => "Red"
  end.
#[export] Instance enum : CybsiAPIEnum t :=
  {| name := str; value := str; members := [White; Green; Amber; Red] |}.
End ShareLevels.

Module NodeRole.
Inductive t : Type :=
| CnC | TorNode | TorExitNode | Proxy | NameServer | MailExchanger | Phishing
| DynDNS | Cloud | VPN | STUN | Sinkhole | PayloadDelivery
| ExfiltrationStore | CDN | BitTorrentTracker.
Definition str (x : t) : string :=
  match x with
  | CnC => "CnC" | TorNode => "TorNode" | TorExitNode => "TorExitNode"
  | Proxy => "Proxy" | NameServer => "NameServer"
  | MailExchanger => "MailExchanger" | Phishing => "Phishing"
  | DynDNS => "DynDNS" | Cloud => "Cloud" | VPN => "VPN" | STUN => "STUN"
  | Sinkhole => "Sinkhole" | PayloadDelivery => "PayloadDelivery"
  | ExfiltrationStore => "ExfiltrationStore" | CDN => "CDN"
  | BitTorrentTracker => "BitTorrentTracker"
  end.
#[export] Instance enum : CybsiAPIEnum t :=
  {| name := str; value := str;
     members :=
       [CnC; TorNode; TorExitNode; Proxy; NameServer; MailExchanger; Phishing;
        DynDNS; Cloud; VPN; STUN; Sinkhole; PayloadDelivery;
        ExfiltrationStore; CDN; BitTorrentTracker] |}.
End NodeRole.

Module IdentityClass.
Inductive t : Type := Individual | Group | Organization | Class_.
Definition str (x : t) : string :=
  match x with
  | Individual => "Individual" | Group => "Group"
  | Organization => "Organization" | Class_ => "Class"
  end.
#[export] Instance enum : CybsiAPIEnum t :=
  {| name := str; value := str;
     members := [Individual; Group; Organization; Class_] |}.
End IdentityClass.

Module ThreatStatus.
Inductive t : Type := Unknown | Malicious | NonMalicious.
Definition str (x : t) : string :=
  match x with
  | Unknown => "Unknown" | Malicious => "Malicious"
  | NonMalicious => "NonMalicious"
  end.
#[export] Instance enum : CybsiAPIEnum t :=
  {| name := str; value := str; members := [Unknown; Malicious; NonMalicious] |}.
End ThreatStatus.

Module RegionalInternetRegistry.
Inductive t : Type := RIPE | APNIC | ARIN | AFRINIC | LACNIC.
Definition str (x : t) : string :=
  match x with
  | RIPE => "RIPE" | APNIC => "APNIC" | ARIN => "ARIN"
  | AFRINIC => "AFRINIC" | LACNIC => "LACNIC"
  end.
#[export] Instance enum : CybsiAPIEnum t :=
  {| name := str; value := str;
     members := [RIPE; APNIC; ARIN; AFRINIC; LACNIC] |}.
End RegionalInternetRegistry.

Module ThreatCategory.
Inductive t : Type := Clean | Riskware | Adware | Malware.
Definition str (x : t) : string :=
  match x with
  | Clean => "Clean" | Riskware => "Riskware" | Adware => "Adware"
  | Malware => "Malware"
  end.
#[export] Instance enum : CybsiAPIEnum t :=
  {| name := str; value := str; members := [Clean; Riskware; Adware; Malware] |}.
End ThreatCategory.

Module RelatedThreatCategory.
Inductive t : Type := Riskware | Adware | Malware.
Definition str (x : t) : string :=
  match x with
  | Riskware => "Riskware" | Adware => "Adware" | Malware => "Malware"
  end.
#[export] Instance enum : CybsiAPIEnum t :=
  {| name := str; value := str; members := [Riskware; Adware; Malware] |}.
End RelatedThreatCategory.

Module PotentialDamage.
Inductive t : Type := Low | Medium | High.
Definition str (x : t) : string :=
  match x with
  | Low => "Low" | Medium => "Medium" | High => "High"
  end.
#[export] Instance enum : CybsiAPIEnum t :=
  {| name := str; value := str; members := [Low; Medium; High] |}.
End PotentialDamage.

End EnumsRest.

(** Calling an enumeration class with a value, as in [EntityTypes(typ)]:
    the first member defined with that value, [ValueError] when there is
    none. *)
Definition from_value {E : Type} `{CybsiAPIEnum E} (v : string) : result E :=
  match find (λ m, String.eqb (value m) v) members with
  | Some m => Ok m
  | None => Err (ValueError (v +:+ " is not a valid member"))
  end.

(** The same call on a JSON value: only a string can be the value of a
    member. *)
Definition from_json_value {E : Type} `{CybsiAPIEnum E} (j : json) : result E :=
  match j with
  | JStr v => from_value v
  | _ => Err (ValueError "not a valid member")
  end.

(** ** The views and calls of the cited files that the claims leave out *)

(** What a Python expression can do besides returning or raising one of
    the exceptions above: iterating over a value that is not iterable
    raises [TypeError]. *)
Inductive outcome (A : Type) : Type :=
| Returns (a : A)
| Raises (e : exn)
| RaisesTypeError (msg : string).
Arguments Returns {A} a.
Arguments Raises {A} e.
Arguments RaisesTypeError {A} msg.

(** Iteration over a JSON value, as a [for] clause does it: a list gives
    its elements, a string its characters, anything else is not
    iterable. *)
Fixpoint str_chars (s : string) : list json :=
  match s with
  | EmptyString => []
  | String a s' => JStr (String a EmptyString) :: str_chars s'
  end.

Definition json_iter (j : json) : outcome (list json) :=
  match j with
  | JList l => Returns l
  | JStr s => Returns (str_chars s)
  | _ => RaisesTypeError "object is not iterable"
  end.

Module ExternalDBViews.

Section View.

(** The accessor [_get] of the view, of [cybsi/api/internal], which is
    not among the sources: what it returns or raises for a key. *)
Variable _get : string → result json.

(** [ExternalDBView.entity_types] *)
Definition entity_types : outcome (list EntityTypes) :=
  match _get "entityTypes" with
  | Err e => Raises e
  | Ok j =>
      match json_iter j with
      | Returns l =>
          match result_mapM from_json_value l with
          | Ok ts => Returns ts
          | Err e => Raises e
          end
      | Raises e => Raises e
      | RaisesTypeError msg => RaisesTypeError msg
      end
  end.

End View.
End ExternalDBViews.


(** ** Concrete instances used to exercise the definitions *)

Definition sample_uuid : UUID :=
  {| uuid_int := 0x3a53cc35f632434cbd4b1ed8c014003a |}.

(** A server that answers every request with an empty list and no cursor. *)
Definition empty_server : request → result answer :=
  λ _, Ok {| ans_json := JList []; ans_cursor := None |}.

(** ** Vocabulary of the statements *)

(** What [edit] puts under a key for a nullable argument. *)
Definition tri_state {T : Type} (enc : T → json) (arg : Nullable T)
  : option json :=
  match arg with
  | None => None
  | Some Null => Some JNull
  | Some (Val v) => Some (enc v)
  end.

(** The key set a dictionary gains from an optional argument. *)
Definition key_if_given {A : Type} (k : string) (arg : option A) : gset string :=
  match arg with
  | Some _ => {[k]}
  | None => ∅
  end.

(** The GET request the connector issues for a path and parameters. *)
Definition get_request (path : string) (params : gmap string param) : request :=
  {| req_method := GET; req_path := path; req_params := params;
     req_tag := None; req_json := None |}.

(** The shape of a version string: [MAJOR.MINOR.PATCH], then an optional
    [-PRERELEASE], then an optional [+BUILD]. *)
Fixpoint all_digits (s : string) : bool :=
  match s with
  | EmptyString => true
  | String a s' => is_digit a && all_digits s'
  end.

(** A component that [int] converts: decimal digits, at least one and no
    more than the limit of the interpreter. *)
Definition is_number (s : string) : bool :=
  negb (String.eqb s "") && all_digits s
  && (String.length s <=? int_max_str_digits)%nat.

(** The number a string of decimal digits denotes. *)
Fixpoint dec_value (s : string) : Z :=
  match s with
  | EmptyString => 0
  | String a s' => digit_value a * 10 ^ Z.of_nat (String.length s') + dec_value s'
  end.

Definition optional_part (sep : ascii) (part : option string) : string :=
  match part with
  | Some t => String sep t
  | None => EmptyString
  end.

Definition version_string
    (major minor patch : string) (prerelease build : option string) : string :=
  ((major +:+ "." +:+ minor +:+ "." +:+ patch)
     +:+ optional_part "-" prerelease)
    +:+ optional_part "+" build.

(** An optional part that is absent or empty reads back as [None]. *)
Definition nonempty_part (part : option string) : option string :=
  match part with
  | Some t => if String.eqb t "" then None else Some t
  | None => None
  end.

(** A prerelease part cannot hold a [+]: the build part starts at the
    first one. *)
Definition plus_free (part : option string) : bool :=
  match part with
  | Some t => negb (str_contains "+" t)
  | None => true
  end.

(** The items of an answer as a page shows them, and their number. *)
Definition answer_items {T : Type} (view : json → T) (a : answer) : list T :=
  match ans_json a with
  | JList l => view <$> l
  | _ => []
  end.

Definition answer_size (a : answer) : nat :=
  match ans_json a with
  | JList l => length l
  | _ => 0%nat
  end.

(** The request for the page behind a cursor. *)
Definition cursor_request (path : string) (c : Cursor) : request :=
  get_request path {["cursor" := PStr c]}.

(** [serves server path c rest]: behind the cursor [c] of a page of
    [path] the server holds exactly the pages [rest], each found with
    the cursor of the one before, the last one without a cursor. *)
Fixpoint serves (server : request → result answer) (path : string)
    (c : option Cursor) (rest : list answer) : Prop :=
  match rest with
  | [] => c = None
  | a :: rest' =>
      ∃ k, c = Some k ∧ server (cursor_request path k) = Ok a ∧
           serves server path (ans_cursor a) rest'
  end.

(** The requests that walking through [rest] takes, in order. *)
Fixpoint walk_requests (path : string) (c : option Cursor) (rest : list answer)
  : list request :=
  match rest, c with
  | a :: rest', Some k =>
      cursor_request path k :: walk_requests path (ans_cursor a) rest'
  | _, _ => []
  end.

(** The steps that walking through [rest] takes: one for every item, one
    for every fetch. *)
Fixpoint walk_steps (rest : list answer) : nat :=
  match rest with
  | [] => 0
  | a :: rest' => S (answer_size a + walk_steps rest')
  end.

(** A server with three pages of entities, linked by the cursors [c1] and
    [c2]. *)
Definition three_page_server : request → result answer :=
  λ r,
    match req_params r !! "cursor" with
    | None => Ok {| ans_json := JList [JInt 1; JInt 2]; ans_cursor := Some "c1" |}
    | Some (PStr "c1") => Ok {| ans_json := JList [JInt 3]; ans_cursor := Some "c2" |}
    | Some (PStr "c2") => Ok {| ans_json := JList [JInt 4; JInt 5]; ans_cursor := None |}
    | Some _ => Err (HTTPError 400)
    end.

(** The key a dictionary gains from an argument tested for truthiness. *)
Definition key_if_truthy {A : Type} `{Truthy A} (k : string) (arg : option A)
  : gset string :=
  match arg with
  | Some x => if truthy x then {[k]} else ∅
  | None => ∅
  end.

(** The number of occurrences of a character. *)
Fixpoint count_char (c : ascii) (s : string) : nat :=
  match s with
  | EmptyString => 0
  | String a s' => (if Ascii.eqb a c then 1 else 0) + count_char c s'
  end.

(** * Properties *)

Section ExternalDBsProperties.
Import Enums ExternalDBs.

Variable server : request → result answer.

Lemma edit_form_lookups entity_types web_page_url timeout attempts :
  let form := edit_form entity_types web_page_url timeout attempts in
  form !! "entityTypes"
    = (λ ts, JList ((λ t, JStr (value t)) <$> ts)) <$> entity_types ∧
  form !! "webPageURL" = tri_state JStr web_page_url ∧
  form !! "taskExecutionTimeout" = tri_state JInt timeout ∧
  form !! "taskExecutionAttemptsCount" = tri_state JInt attempts.
Proof.
  unfold edit_form.
  destruct entity_types, web_page_url as [[|?]|], timeout as [[|?]|],
    attempts as [[|?]|]; simpl; by simplify_map_eq.
Qed.

Lemma edit_run db_uuid tag entity_types web_page_url timeout attempts log :
  let req := {| req_method := PATCH;
                req_path := "/enrichment/external-dbs/" +:+ UUID_str db_uuid;
                req_params := ∅;
                req_tag := Some tag;
                req_json := Some (edit_form entity_types web_page_url
                                    timeout attempts) |} in
  edit server db_uuid tag entity_types web_page_url timeout attempts log
    = (result_map (λ _, tt) (server req), log ++ [req]).
Proof.
  unfold edit, Http.do_patch, Http.send, mbind, api_bind, bind; simpl.
  by destruct (server _).
Qed.

(** C1: [ExternalDBsAPI.edit] sends one PATCH whose body follows the
    tri-state convention for [web_page_url], [task_execution_timeout] and
    [task_execution_attempts_count]: [None] leaves the key out of the
    body, the sentinel [Null] puts the key in with JSON [null], a value
    puts the key in with that value. *)
Theorem edit_tri_state
    db_uuid tag entity_types
    (web_page_url : Nullable string)
    (task_execution_timeout task_execution_attempts_count : Nullable Z) log :
  ∃ req form,
    edit server db_uuid tag entity_types web_page_url task_execution_timeout
      task_execution_attempts_count log
      = (result_map (λ _, tt) (server req), log ++ [req]) ∧
    req_method req = PATCH ∧
    req_json req = Some form ∧
    form !! "webPageURL" =
      match web_page_url with
      | None => None
      | Some Null => Some JNull
      | Some (Val url) => Some (JStr url)
      end ∧
    form !! "taskExecutionTimeout" =
      match task_execution_timeout with
      | None => None
      | Some Null => Some JNull
      | Some (Val seconds) => Some (JInt seconds)
      end ∧
    form !! "taskExecutionAttemptsCount" =
      match task_execution_attempts_count with
      | None => None
      | Some Null => Some JNull
      | Some (Val count) => Some (JInt count)
      end.
Proof.
  eexists _, _. split; [apply edit_run|].
  destruct (edit_form_lookups entity_types web_page_url task_execution_timeout
              task_execution_attempts_count) as (_ & Hu & Ht & Hc).
  simpl. by rewrite Hu, Ht, Hc.
Qed.

(** C7: the body built by [ExternalDBForm] holds [dataSourceUUID] (the
    string form of the uuid) and [entityTypes] (the values of the entity
    types, in the given order) always, holds each of [webPageURL],
    [taskExecutionTimeout] and [taskExecutionAttemptsCount] exactly when
    the argument is not [None], mapped to the argument's value, and holds
    no other key. *)
Theorem ExternalDBForm_keys
    data_source_uuid entity_types
    (web_page_url : option string)
    (task_execution_timeout task_execution_attempts_count : option Z) :
  let form :=
    ExternalDBForm data_source_uuid entity_types web_page_url
      task_execution_timeout task_execution_attempts_count in
  form !! "dataSourceUUID" = Some (JStr (UUID_str data_source_uuid)) ∧
  form !! "entityTypes" = Some (JList ((λ t, JStr (value t)) <$> entity_types)) ∧
  form !! "webPageURL" = JStr <$> web_page_url ∧
  form !! "taskExecutionTimeout" = JInt <$> task_execution_timeout ∧
  form !! "taskExecutionAttemptsCount" = JInt <$> task_execution_attempts_count ∧
  dom form =
    {["dataSourceUUID"; "entityTypes"]}
    ∪ key_if_given "webPageURL" web_page_url
    ∪ key_if_given "taskExecutionTimeout" task_execution_timeout
    ∪ key_if_given "taskExecutionAttemptsCount" task_execution_attempts_count.
Proof.
  unfold ExternalDBForm.
  destruct web_page_url, task_execution_timeout, task_execution_attempts_count;
    simpl; repeat split; try (by simplify_map_eq);
    rewrite ?dom_insert_L, dom_empty_L; set_solver.
Qed.

End ExternalDBsProperties.

Section EntitiesProperties.
Import Enums Pagination Entities.

Variable server : request → result answer.
Variable datetime : Type.
Variable rfc3339_timestamp : datetime → string.

(** A GET followed by wrapping the response: one request is logged, and
    the result is the server's answer, wrapped, or the server's error. *)
Lemma do_get_then {A : Type} (f : response → A) path params log :
  (r ← Http.do_get server path params; mret (f r)) log
    = (result_map (λ a, f (response_of path a))
         (server (get_request path params)),
       log ++ [get_request path params]).
Proof.
  unfold Http.do_get, Http.send, mbind, api_bind, bind, get_request; simpl.
  by destruct (server _).
Qed.

(** C6: [EntitiesAPI.view] issues one GET to
    [/observable/entities/{entity_uuid}]; its parameter dictionary holds
    [section] exactly when [sections] is not [None] (the list of section
    values), [forecastAt] exactly when [forecast_at] is not [None] (its
    RFC 3339 timestamp), [valuableFacts] exactly when
    [with_valuable_facts] is not [None], and nothing else; the result is
    the JSON of the response wrapped in an [EntityAggregateView]. *)
Theorem view_request
    entity_uuid (sections : option (list EntityAggregateSections))
    (forecast_at : option datetime) (with_valuable_facts : option bool) log :
  ∃ params,
    let path := "/observable/entities/" +:+ UUID_str entity_uuid in
    view server datetime rfc3339_timestamp entity_uuid sections forecast_at
      with_valuable_facts log
      = (result_map (λ a, {| aggregate_json := ans_json a |})
           (server (get_request path params)),
         log ++ [get_request path params]) ∧
    params !! "section" = (λ ss, PStrs (value <$> ss)) <$> sections ∧
    params !! "forecastAt" = (λ t, PStr (rfc3339_timestamp t)) <$> forecast_at ∧
    params !! "valuableFacts" = PBool <$> with_valuable_facts ∧
    (is_Some (params !! "section") ↔ sections ≠ None) ∧
    (is_Some (params !! "forecastAt") ↔ forecast_at ≠ None) ∧
    (is_Some (params !! "valuableFacts") ↔ with_valuable_facts ≠ None) ∧
    dom params =
      key_if_given "section" sections ∪ key_if_given "forecastAt" forecast_at
      ∪ key_if_given "valuableFacts" with_valuable_facts.
Proof.
  exists (view_params datetime rfc3339_timestamp sections forecast_at
            with_valuable_facts).
  split; [apply do_get_then|].
  unfold view_params.
  destruct sections, forecast_at, with_valuable_facts; simpl;
    repeat split; intros;
    try (by simplify_map_eq); try (by eexists; simplify_map_eq);
    try (by rewrite ?dom_insert_L, dom_empty_L; set_solver);
    try (by destruct (is_Some_None (A := param)); simplify_map_eq).
Qed.

(** The requests of the two paginated operations. *)
Lemma aggregate_run entity_uuids sections forecast_at cursor limit log :
  let params :=
    aggregate_params datetime rfc3339_timestamp entity_uuids sections
      forecast_at cursor limit in
  aggregate server datetime rfc3339_timestamp entity_uuids sections
    forecast_at cursor limit log
  = (result_map
       (λ a, mkPage (Http.do_get server)
               (response_of "/observable/entities" a) Build_EntityAggregateView)
       (server (get_request "/observable/entities" params)),
     log ++ [get_request "/observable/entities" params]).
Proof. apply (do_get_then (λ r, mkPage _ r _)). Qed.

Lemma forecast_links_run
    entity_uuid related direction kind threshold forecast_at cursor limit log :
  let params :=
    forecast_links_params datetime rfc3339_timestamp related direction kind
      threshold forecast_at cursor limit in
  let path := "/observable/entities/" +:+ UUID_str entity_uuid +:+ "/links" in
  forecast_links server datetime rfc3339_timestamp entity_uuid related
    direction kind threshold forecast_at cursor limit log
  = (result_map
       (λ a, mkPage (Http.do_get server) (response_of path a)
               Build_EntityLinksForecastView)
       (server (get_request path params)),
     log ++ [get_request path params]).
Proof. apply (do_get_then (λ r, mkPage _ r _)). Qed.


End EntitiesProperties.

Section ClientProperties.
Import Client.

Variable Callable : Type.

(** C9: constructing a [CybsiClient] raises [CybsiError] exactly when
    [config.auth] is [None] and [config.api_key] is the empty string; with
    a non-empty key the connector gets [APIKeyAuth] built from the key,
    whatever [config.auth] is; otherwise it gets the given [auth]. The
    construction issues no request. *)
Theorem CybsiClient_init_auth (config : Config Callable) log :
  let run := CybsiClient_init Callable config log in
  ((∃ msg, run.1 = Err (CybsiError msg))
     ↔ auth Callable config = None ∧ api_key Callable config = "") ∧
  (is_ok run.1 = false
     ↔ auth Callable config = None ∧ api_key Callable config = "") ∧
  run.1 =
    (if String.eqb (api_key Callable config) "" then
       match auth Callable config with
       | None =>
           Err (CybsiError "No authorization mechanism configured for client")
       | Some given =>
           Ok {| _connector :=
                   {| base_url := api_url Callable config;
                      connector_auth := Some given;
                      connector_ssl_verify := ssl_verify Callable config |} |}
       end
     else
       Ok {| _connector :=
               {| base_url := api_url Callable config;
                  connector_auth :=
                    Some (APIKeyAuth Callable "" (api_key Callable config));
                  connector_ssl_verify := ssl_verify Callable config |} |}) ∧
  run.2 = log.
Proof.
  unfold CybsiClient_init, truthy, string_truthy.
  destruct config as [url [given|] ssl key]; simpl;
    destruct (String.eqb_spec key "") as [->|Hkey]; simpl;
    repeat split; intros; try done;
    try match goal with H : ∃ _, _ |- _ => by destruct H as [? [=]] end;
    try match goal with H : _ ∧ _ |- _ => destruct H; congruence end;
    eauto.
Qed.

End ClientProperties.

Section VersionProperties.
Import Client.

Lemma append_cons a (s t : string) : String a s +:+ t = String a (s +:+ t).
Proof. reflexivity. Qed.

Lemma append_empty_l (t : string) : "" +:+ t = t.
Proof. reflexivity. Qed.

Lemma append_empty_r (s : string) : s +:+ "" = s.
Proof. induction s as [|a s IH]; [done|]. by rewrite append_cons, IH. Qed.

Lemma str_contains_app c (a b : string) :
  str_contains c (a +:+ b) = str_contains c a || str_contains c b.
Proof.
  induction a as [|x a IH]; [done|].
  rewrite append_cons. simpl. by destruct (Ascii.eqb x c).
Qed.

Lemma str_split_absent sep (s : string) n :
  str_contains sep s = false → str_split sep s n = [s].
Proof.
  revert n. induction s as [|x s IH]; intros n; simpl; [done|].
  destruct n as [|n]; [done|].
  destruct (Ascii.eqb x sep); [done|].
  intros Hs. by rewrite IH.
Qed.

Lemma str_split_first sep (a b : string) n :
  str_contains sep a = false →
  str_split sep (a +:+ String sep b) (S n) = a :: str_split sep b n.
Proof.
  induction a as [|x a IH]; [rewrite append_empty_l|rewrite append_cons]; simpl.
  - intros _. by rewrite Ascii.eqb_refl.
  - destruct (Ascii.eqb x sep); [done|].
    intros Ha. by rewrite IH.
Qed.

Lemma str_split_zero sep (s : string) : str_split sep s 0 = [s].
Proof. by destruct s. Qed.

Lemma is_digit_not_space a : is_digit a = true → is_space a = false.
Proof.
  unfold is_digit, is_space. intros [H1 H2]%andb_true_iff.
  apply N.leb_le in H1. apply N.leb_le in H2.
  destruct (N.leb_spec 9 (N_of_ascii a)), (N.leb_spec (N_of_ascii a) 13),
    (N.eqb_spec (N_of_ascii a) 32), (N.eqb_spec (N_of_ascii a) 133),
    (N.eqb_spec (N_of_ascii a) 160); simpl; try done; lia.
Qed.

Lemma is_digit_not_char a c :
  is_digit a = true → is_digit c = false → Ascii.eqb a c = false.
Proof. intros Ha Hc. apply Ascii.eqb_neq. congruence. Qed.

Lemma all_digits_absent c (s : string) :
  is_digit c = false → all_digits s = true → str_contains c s = false.
Proof.
  intros Hc. induction s as [|a s IH]; simpl; [done|].
  intros [Ha Hs]%andb_true_iff.
  by rewrite (is_digit_not_char a c Ha Hc), IH.
Qed.

Lemma lstrip_digits (s : string) : all_digits s = true → lstrip s = s.
Proof.
  destruct s as [|a s]; simpl; [done|].
  intros [Ha _]%andb_true_iff. by rewrite (is_digit_not_space a Ha).
Qed.

Lemma rstrip_digits (s : string) : all_digits s = true → rstrip s = s.
Proof.
  induction s as [|a s IH]; simpl; [done|].
  intros [Ha Hs]%andb_true_iff. rewrite (IH Hs).
  destruct s; [by rewrite (is_digit_not_space a Ha)|done].
Qed.

Lemma int_digits_value (s : string) acc after_digit :
  all_digits s = true →
  s ≠ "" ∨ after_digit = true →
  int_digits s acc after_digit
    = Some (acc * 10 ^ Z.of_nat (String.length s) + dec_value s).
Proof.
  revert acc after_digit.
  induction s as [|a s IH]; intros acc after_digit; simpl.
  - intros _ [?| ->]; [done|]. f_equal. lia.
  - intros [Ha Hs]%andb_true_iff _. rewrite Ha.
    rewrite (IH _ true Hs) by auto. f_equal.
    rewrite Nat2Z.inj_succ, Z.pow_succ_r by lia. lia.
Qed.

Lemma count_digits_length (s : string) :
  (count_digits s ≤ String.length s)%nat.
Proof.
  induction s as [|a s IH]; simpl; [done|]. destruct (is_digit a); lia.
Qed.

Lemma int_number (s : string) : is_number s = true → int s = Ok (dec_value s).
Proof.
  unfold is_number. intros [[Hne Hs]%andb_true_iff Hlen]%andb_true_iff.
  apply negb_true_iff, String.eqb_neq in Hne.
  unfold int. rewrite (lstrip_digits s Hs), (rstrip_digits s Hs).
  assert (Hc : (count_digits s <=? int_max_str_digits)%nat = true).
  { apply Nat.leb_le. apply Nat.leb_le in Hlen.
    pose proof (count_digits_length s). lia. }
  rewrite Hc. clear Hc Hlen.
  destruct s as [|a s]; [done|].
  assert (Ha : is_digit a = true) by (simpl in Hs; by apply andb_true_iff in Hs as [? _]).
  assert (int_digits (String a s) 0 false = Some (dec_value (String a s))) as Hv.
  { rewrite int_digits_value by auto. f_equal; lia. }
  destruct (Ascii.eqb_spec a "+") as [->|Hp]; [done|].
  destruct (Ascii.eqb_spec a "-") as [->|Hm]; [done|].
  destruct a as [[] [] [] [] [] [] [] []]; try done; by rewrite Hv.
Qed.

Lemma number_digits (s : string) : is_number s = true → all_digits s = true.
Proof. unfold is_number. by intros [[_ ?]%andb_true_iff _]%andb_true_iff. Qed.

Lemma core_absent c (M m p : string) :
  is_digit c = false → Ascii.eqb "." c = false →
  is_number M = true → is_number m = true → is_number p = true →
  str_contains c (M +:+ "." +:+ m +:+ "." +:+ p) = false.
Proof.
  intros Hc Hdot HM Hm Hp.
  rewrite !str_contains_app. cbn [str_contains]. rewrite Hdot.
  by rewrite !(all_digits_absent c _ Hc) by by apply number_digits.
Qed.

Lemma core_split (M m p : string) :
  is_number M = true → is_number m = true → is_number p = true →
  str_split "." (M +:+ "." +:+ m +:+ "." +:+ p) 2 = [M; m; p].
Proof.
  intros HM Hm Hp.
  rewrite !append_cons, !append_empty_l.
  rewrite str_split_first by (by apply all_digits_absent, number_digits).
  rewrite str_split_first by (by apply all_digits_absent, number_digits).
  by rewrite str_split_zero.
Qed.

(** C8, as amended: for a version string [MAJOR.MINOR.PATCH], optionally
    followed by [-PRERELEASE] and then by [+BUILD], parsing succeeds;
    [major], [minor] and [patch] are the three numbers; [prerelease] is
    [None] exactly when there is no [-] part or the text after the [-] is
    empty, and is that text otherwise; [build] is [None] exactly when
    there is no [+] part or the text after the [+] is empty, and is that
    text otherwise; [str] gives back the string that was parsed. *)
Theorem Version_parse (M m p : string) (pre bld : option string) :
  is_number M = true → is_number m = true → is_number p = true →
  plus_free pre = true →
  ∃ ver,
    Version_init (version_string M m p pre bld) = Ok ver ∧
    major ver = dec_value M ∧
    minor ver = dec_value m ∧
    patch ver = dec_value p ∧
    prerelease ver = nonempty_part pre ∧
    build ver = nonempty_part bld ∧
    Version_str ver = version_string M m p pre bld.
Proof.
  intros HM Hm Hp Hpre.
  unfold Version_init, version_string.
  set (core := M +:+ "." +:+ m +:+ "." +:+ p).
  assert (Hplus : str_contains "+" core = false) by by apply core_absent.
  assert (Hdash : str_contains "-" core = false) by by apply core_absent.
  assert (Hp1 : str_contains "+" (core +:+ optional_part "-" pre) = false).
  { rewrite str_contains_app, Hplus. destruct pre as [t|]; [|done].
    simpl in *. by apply negb_true_iff in Hpre. }
  assert (Hparts : result_mapM int (str_split "." core 2)
                   = Ok [dec_value M; dec_value m; dec_value p]).
  { unfold core. rewrite core_split by done. simpl.
    by rewrite !int_number by done. }
  assert (Hfirst : ∀ rest : string,
            (if str_contains "-" (core +:+ optional_part "-" pre)
             then unpack2 (str_split "-" (core +:+ optional_part "-" pre) 1)
             else Ok (core +:+ optional_part "-" pre, ""))
            = Ok (core, default "" pre)).
  { intros _. destruct pre as [t|]; simpl.
    - rewrite str_contains_app. simpl. rewrite orb_true_r.
      by rewrite str_split_first, str_split_zero.
    - by rewrite append_empty_r, Hdash. }
  destruct bld as [b|]; simpl.
  - rewrite str_contains_app. simpl. rewrite orb_true_r.
    rewrite str_split_first, str_split_zero by done. simpl.
    rewrite (Hfirst ""). simpl. rewrite Hparts. simpl.
    eexists. split; [done|]. repeat split.
    + unfold prerelease. simpl. destruct pre as [t|]; simpl; [|done].
      by destruct (String.eqb t "").
    + unfold build. simpl. by destruct (String.eqb b "").
  - rewrite append_empty_r, Hp1. simpl.
    rewrite (Hfirst ""). simpl. rewrite Hparts. simpl.
    eexists. split; [done|]. repeat split.
    unfold prerelease. simpl. destruct pre as [t|]; simpl; [|done].
    by destruct (String.eqb t "").
Qed.

End VersionProperties.

(** C8 (witness): the theorem at [1.2.3-rc.1+build.5]. *)
Lemma Version_parse_witness :
  is_number "1" = true ∧ is_number "2" = true ∧ is_number "3" = true ∧
  plus_free (Some "rc.1") = true ∧
  ∃ ver,
    Client.Version_init "1.2.3-rc.1+build.5" = Ok ver ∧
    Client.major ver = 1 ∧ Client.minor ver = 2 ∧ Client.patch ver = 3 ∧
    Client.prerelease ver = Some "rc.1" ∧
    Client.build ver = Some "build.5" ∧
    Client.Version_str ver = "1.2.3-rc.1+build.5".
Proof.
  split; [reflexivity|]. split; [reflexivity|]. split; [reflexivity|].
  split; [reflexivity|].
  apply (Version_parse "1" "2" "3" (Some "rc.1") (Some "build.5"));
    reflexivity.
Defined.

(** C8 (counterexample): [1.2.3-] has a [-] part and [1.2.3+] has a [+]
    part, yet [prerelease] of the first and [build] of the second are
    [None]: an empty text after the separator reads as an absent part. *)
Lemma Version_empty_parts_are_None :
  (∃ ver,
     Client.Version_init "1.2.3-" = Ok ver ∧
     str_contains "-" "1.2.3-" = true ∧
     Client.prerelease ver = None) ∧
  (∃ ver,
     Client.Version_init "1.2.3+" = Ok ver ∧
     str_contains "+" "1.2.3+" = true ∧
     Client.build ver = None).
Proof. split; eexists; repeat split. Qed.

Section PaginationProperties.
Import Pagination Entities.

Variable server : request → result answer.
Context {T : Type}.

Ltac run_api :=
  unfold mbind, mret, api_bind, api_ret, bind, ret; simpl.

Lemma data_response path a (view : json → T) call :
  data (mkPage call (response_of path a) view) = answer_items view a.
Proof. reflexivity. Qed.

(** A pending item is handed out without a request. *)
Lemma step_yield x (rest : list T) page log :
  step {| pending := x :: rest; current := page |} log
    = (Ok (Yield x, {| pending := rest; current := page |}), log).
Proof. reflexivity. Qed.

(** With nothing pending and no cursor the sequence ends, without a
    request. *)
Lemma step_stop (page : Page T) log :
  cursor page = None →
  step {| pending := []; current := page |} log
    = (Ok (Stop, {| pending := []; current := page |}), log).
Proof. unfold step, next_page. simpl. by intros ->. Qed.

(** With nothing pending and a cursor, exactly one GET goes out, for the
    same path and with that cursor. *)
Lemma step_fetch r (view : json → T) k a log :
  resp_cursor r = Some k →
  server (cursor_request (resp_url r) k) = Ok a →
  step {| pending := []; current := mkPage (Http.do_get server) r view |} log
    = (Ok (Fetched,
           {| pending := answer_items view a;
              current := mkPage (Http.do_get server)
                           (response_of (resp_url r) a) view |}),
       log ++ [cursor_request (resp_url r) k]).
Proof.
  intros Hk Ha. unfold step, next_page, cursor. simpl. rewrite Hk.
  unfold Http.do_get, Http.send. run_api.
  unfold cursor_request, get_request in Ha. by rewrite Ha.
Qed.

Lemma drain_unfold fuel (it : items_iter (T := T)) log :
  drain (S fuel) it log =
    match step it log with
    | (Ok (Yield x, it'), log') =>
        match drain fuel it' log' with
        | (Ok rest, log'') => (Ok ((x ::.) <$> rest), log'')
        | (Err e, log'') => (Err e, log'')
        end
    | (Ok (Fetched, it'), log') => drain fuel it' log'
    | (Ok (Stop, _), log') => (Ok (Some []), log')
    | (Err e, log') => (Err e, log')
    end.
Proof.
  simpl. unfold mbind, api_bind, bind.
  destruct (step it log) as [[[[x| |] it']|e] log']; try done.
Qed.

Lemma drain_walk rest : ∀ r (view : json → T) items fuel log,
  serves server (resp_url r) (resp_cursor r) rest →
  (length items + walk_steps rest < fuel)%nat →
  drain fuel {| pending := items;
                current := mkPage (Http.do_get server) r view |} log
    = (Ok (Some (items ++ concat (answer_items view <$> rest))),
       log ++ walk_requests (resp_url r) (resp_cursor r) rest).
Proof.
  induction rest as [|a rest IH]; intros r view items.
  - induction items as [|x items IHi]; intros [|fuel] log Hs Hf;
      simpl in Hf; try lia.
    + simpl in Hs. rewrite drain_unfold, step_stop by done.
      simpl. by rewrite app_nil_r.
    + rewrite drain_unfold, step_yield.
      rewrite IHi by (done || (simpl in *; lia)). done.
  - induction items as [|x items IHi]; intros [|fuel] log Hs Hf;
      simpl in Hf; try lia.
    + destruct Hs as (k & Hk & Ha & Hrest).
      rewrite drain_unfold, (step_fetch r view k a) by done.
      rewrite IH; [|done|].
      * rewrite Hk. simpl. by rewrite <- app_assoc.
      * assert (length (answer_items view a) = answer_size a) as ->.
        { unfold answer_items, answer_size.
          destruct (ans_json a); try done. by rewrite length_fmap. }
        lia.
    + rewrite drain_unfold, step_yield.
      rewrite IHi by (done || (simpl in *; lia)). done.
Qed.

End PaginationProperties.

Section PaginatedOperations.
Import Pagination Entities.

Variable server : request → result answer.
Variable datetime : Type.
Variable rfc3339_timestamp : datetime → string.


End PaginatedOperations.


Section EnumLookup.
Import Enums EnumsRest.
Import ShareLevels NodeRole IdentityClass ThreatStatus RegionalInternetRegistry.
Import ThreatCategory RelatedThreatCategory PotentialDamage.

(** Whatever [from_value] returns has the value that was asked for. *)
Lemma from_value_sound {E : Type} `{CybsiAPIEnum E} (v : string) (e : E) :
  from_value v = Ok e → value e = v ∧ e ∈ members.
Proof.
  unfold from_value.
  destruct (find _ members) as [m|] eqn:Hfind; [|done].
  intros [= <-]. apply find_some in Hfind as [Hin Heq].
  split; [by apply String.eqb_eq | by apply list_elem_of_In].
Qed.

(** X1: in every enumeration of [enums.py] no two members share a value:
    calling the class with a string returns a member exactly when the
    string is that member's value, so the value of a member always leads
    back to the member, for all fourteen enumerations. *)
Theorem enum_value_roundtrip :
  (∀ v (e : Enums.EntityTypes), from_value v = Ok e ↔ value e = v) ∧
  (∀ v (e : Enums.EntityKeyTypes), from_value v = Ok e ↔ value e = v) ∧
  (∀ v (e : Enums.AttributeNames), from_value v = Ok e ↔ value e = v) ∧
  (∀ v (e : Enums.RelationshipKinds), from_value v = Ok e ↔ value e = v) ∧
  (∀ v (e : Enums.EntityAggregateSections), from_value v = Ok e ↔ value e = v) ∧
  (∀ v (e : Enums.LinkDirection), from_value v = Ok e ↔ value e = v) ∧
  (∀ v (e : ShareLevels.t), from_value v = Ok e ↔ value e = v) ∧
  (∀ v (e : NodeRole.t), from_value v = Ok e ↔ value e = v) ∧
  (∀ v (e : IdentityClass.t), from_value v = Ok e ↔ value e = v) ∧
  (∀ v (e : ThreatStatus.t), from_value v = Ok e ↔ value e = v) ∧
  (∀ v (e : RegionalInternetRegistry.t), from_value v = Ok e ↔ value e = v) ∧
  (∀ v (e : ThreatCategory.t), from_value v = Ok e ↔ value e = v) ∧
  (∀ v (e : RelatedThreatCategory.t), from_value v = Ok e ↔ value e = v) ∧
  (∀ v (e : PotentialDamage.t), from_value v = Ok e ↔ value e = v).
Proof.
  repeat split;
    try (by intros ?%from_value_sound; tauto);
    intros <-; by destruct e.
Qed.

End EnumLookup.

Section ExternalDBViewProperties.
Import Enums ExternalDBs ExternalDBViews.

Variable _get : string → result json.

Lemma result_mapM_cons {A B : Type} (f : A → result B) x l :
  result_mapM f (x :: l)
    = result_bind (f x)
        (λ y, result_bind (result_mapM f l) (λ ys, Ok (y :: ys))).
Proof. reflexivity. Qed.

Lemma mapM_values (ts : list EntityTypes) :
  result_mapM from_json_value ((λ t, JStr (value t)) <$> ts) = Ok ts.
Proof.
  induction ts as [|t ts IH]; [done|].
  rewrite fmap_cons, result_mapM_cons, IH.
  assert (from_json_value (JStr (value t)) = Ok t) as -> by by destruct t.
  done.
Qed.

Lemma mapM_decoded (l : list json) (ts : list EntityTypes) :
  result_mapM from_json_value l = Ok ts →
  l = (λ t, JStr (value t)) <$> ts.
Proof.
  revert ts. induction l as [|x l IH]; intros ts.
  - by intros [= <-].
  - rewrite result_mapM_cons.
    destruct (from_json_value x) as [t|] eqn:Hx; [|done]. cbn.
    destruct (result_mapM from_json_value l) as [ts'|]; [|done]. cbn.
    intros [= <-]. rewrite fmap_cons. f_equal; [|by apply IH].
    destruct x; try done. simpl in Hx.
    by apply from_value_sound in Hx as [<- _].
Qed.

Lemma mapM_error (l : list json) e :
  result_mapM (from_json_value (E := EntityTypes)) l = Err e →
  ∃ msg, e = ValueError msg.
Proof.
  induction l as [|x l IH]; [done|]. rewrite result_mapM_cons.
  destruct (from_json_value x) as [t|e'] eqn:Hx; cbn.
  - destruct (result_mapM from_json_value l) as [ts'|e'']; cbn; [done|].
    intros [= <-]. by apply IH.
  - intros [= <-]. destruct x; simpl in Hx; try (injection Hx as <-; eauto).
    unfold from_value in Hx. destruct (find _ _); [done|].
    injection Hx as <-. eauto.
Qed.

(** X2: [ExternalDBView.entity_types] reads back what [ExternalDBForm]
    writes: when the view's [entityTypes] is the JSON value that the form
    holds under that key, the property returns the entity types the form
    was built from, in the same order. *)
Theorem entity_types_reads_form
    data_source_uuid (entity_types_ : list EntityTypes) web_page_url timeout
    attempts (j : json) :
  ExternalDBForm data_source_uuid entity_types_ web_page_url timeout attempts
    !! "entityTypes" = Some j →
  _get "entityTypes" = Ok j →
  entity_types _get = Returns entity_types_.
Proof.
  destruct (ExternalDBForm_keys data_source_uuid entity_types_ web_page_url
              timeout attempts) as (_ & -> & _).
  intros [= <-] Hget. unfold entity_types. rewrite Hget. simpl.
  by rewrite mapM_values.
Qed.

(** X3: [ExternalDBView.entity_types] returns a list only when every
    element of the JSON list is the value of a member of [EntityTypes];
    a single element that is not, such as a type added by a newer
    server, makes the whole property raise [ValueError]. *)
Theorem entity_types_unknown_value (l : list json) (x : json) :
  _get "entityTypes" = Ok (JList l) →
  x ∈ l →
  (∀ t : EntityTypes, x ≠ JStr (value t)) →
  ∃ msg, entity_types _get = Raises (ValueError msg).
Proof.
  intros Hget Hx Hunknown. unfold entity_types. rewrite Hget. simpl.
  destruct (result_mapM from_json_value l) as [ts|e] eqn:Hl.
  - apply mapM_decoded in Hl. subst l.
    apply list_elem_of_fmap in Hx as (t & -> & _). by destruct (Hunknown t).
  - apply mapM_error in Hl as [msg ->]. eauto.
Qed.

End ExternalDBViewProperties.

(** X2 (witness): a view over the body of a form. *)
Lemma entity_types_reads_form_witness :
  let form :=
    ExternalDBs.ExternalDBForm sample_uuid [Enums.DomainName; Enums.IPAddress]
      None None None in
  let _get := λ k, match form !! k with
                   | Some j => Ok j
                   | None => Err (KeyError k)
                   end in
  form !! "entityTypes" = Some (JList [JStr "DomainName"; JStr "IPAddress"]) ∧
  _get "entityTypes" = Ok (JList [JStr "DomainName"; JStr "IPAddress"]) ∧
  ExternalDBViews.entity_types _get
    = Returns [Enums.DomainName; Enums.IPAddress].
Proof.
  intros form _get.
  split; [reflexivity|]. split; [reflexivity|].
  apply (entity_types_reads_form _get sample_uuid
           [Enums.DomainName; Enums.IPAddress] None None None
           (JList [JStr "DomainName"; JStr "IPAddress"]));
    reflexivity.
Defined.

(** X3 (witness): a list with a type this client does not know. *)
Lemma entity_types_unknown_value_witness :
  let _get := λ _ : string, Ok (JList [JStr "File"; JStr "Wallet"]) in
  _get "entityTypes" = Ok (JList [JStr "File"; JStr "Wallet"]) ∧
  JStr "Wallet" ∈ [JStr "File"; JStr "Wallet"] ∧
  (∀ t : Enums.EntityTypes, JStr "Wallet" ≠ JStr (value t)) ∧
  ∃ msg, ExternalDBViews.entity_types _get = Raises (ValueError msg).
Proof.
  intros _get.
  assert (H : ∀ t : Enums.EntityTypes, JStr "Wallet" ≠ JStr (value t))
    by (by intros []).
  assert (Hin : JStr "Wallet" ∈ [JStr "File"; JStr "Wallet"])
    by (apply list_elem_of_further, list_elem_of_here).
  split; [reflexivity|]. split; [exact Hin|]. split; [exact H|].
  exact (entity_types_unknown_value _get [JStr "File"; JStr "Wallet"]
           (JStr "Wallet") eq_refl Hin H).
Defined.

Section RequestShapes.
Import Enums Pagination Entities.

Variable server : request → result answer.
Variable datetime : Type.
Variable rfc3339_timestamp : datetime → string.

Lemma dom_key_if_given {A V : Type} (k : string) (arg : option A)
    (f : A → V) (m : gmap string V) :
  dom (match arg with Some x => <[k := f x]> m | None => m end)
    = dom m ∪ key_if_given k arg.
Proof.
  destruct arg as [x|]; simpl.
  - by rewrite dom_insert_L, (comm_L (∪)).
  - by rewrite (right_id_L ∅ (∪)).
Qed.

Lemma dom_key_if_truthy {A V : Type} `{Truthy A} (k : string) (arg : option A)
    (f : A → V) (m : gmap string V) :
  dom (match arg with
       | Some x => if truthy x then <[k := f x]> m else m
       | None => m
       end)
    = dom m ∪ key_if_truthy k arg.
Proof.
  unfold key_if_truthy. destruct arg as [x|]; simpl.
  - destruct (truthy x).
    + by rewrite dom_insert_L, (comm_L (∪)).
    + by rewrite (right_id_L ∅ (∪)).
  - by rewrite (right_id_L ∅ (∪)).
Qed.

(** X4: the body that [ExternalDBForm] builds for registration is the
    body that [edit] builds from the same entity types and the same
    optional values, with [dataSourceUUID] added: both encode every
    shared field under the same key and in the same way. *)
Theorem ExternalDBForm_as_edit_form
    data_source_uuid (entity_types : list EntityTypes)
    (web_page_url : option string) (timeout attempts : option Z) :
  ExternalDBs.ExternalDBForm data_source_uuid entity_types web_page_url
    timeout attempts
  = <["dataSourceUUID" := JStr (UUID_str data_source_uuid)]>
      (ExternalDBs.edit_form (Some entity_types) (Val <$> web_page_url)
         (Val <$> timeout) (Val <$> attempts)).
Proof.
  unfold ExternalDBs.ExternalDBForm, ExternalDBs.edit_form.
  destruct web_page_url, timeout, attempts; simpl;
    apply map_eq; intros k;
    repeat (rewrite lookup_insert; case_decide; [done|]); done.
Qed.

(** X5: the body of [edit] holds a key exactly for the arguments that are
    not [None], and no other key; with every optional argument left out
    the PATCH is still issued, with an empty body. *)
Theorem edit_form_keys
    db_uuid tag (entity_types : option (list EntityTypes))
    (web_page_url : Nullable string) (timeout attempts : Nullable Z) log :
  dom (ExternalDBs.edit_form entity_types web_page_url timeout attempts)
    = key_if_given "entityTypes" entity_types
      ∪ key_if_given "webPageURL" web_page_url
      ∪ key_if_given "taskExecutionTimeout" timeout
      ∪ key_if_given "taskExecutionAttemptsCount" attempts ∧
  ∃ req,
    ExternalDBs.edit server db_uuid tag None None None None log
      = (result_map (λ _, tt) (server req), log ++ [req]) ∧
    req_method req = PATCH ∧ req_tag req = Some tag ∧ req_json req = Some ∅.
Proof.
  split.
  - unfold ExternalDBs.edit_form.
    destruct entity_types, web_page_url, timeout, attempts; simpl;
      rewrite ?dom_insert_L, dom_empty_L; set_solver.
  - eexists. split; [apply edit_run|]. done.
Qed.

(** X6: the parameters of [aggregate] are [uuid], always, and [section],
    [forecastAt], [cursor] and [limit] for the arguments given ([cursor]
    and [limit] for truthy ones), and nothing else. *)
Theorem aggregate_params_keys
    entity_uuids (sections : option (list EntityAggregateSections))
    (forecast_at : option datetime) (cursor : option Cursor)
    (limit : option Z) :
  dom (aggregate_params datetime rfc3339_timestamp entity_uuids sections
         forecast_at cursor limit)
    = {["uuid"]} ∪ key_if_given "section" sections
      ∪ key_if_given "forecastAt" forecast_at
      ∪ key_if_truthy "cursor" cursor ∪ key_if_truthy "limit" limit.
Proof.
  unfold aggregate_params. cbv zeta.
  by rewrite !dom_key_if_truthy, !dom_key_if_given, dom_singleton_L.
Qed.


End RequestShapes.

Section VersionInvariants.
Import Client.

Lemma split_two c (s : string) :
  str_contains c s = true →
  ∃ a b, str_split c s 1 = [a; b] ∧ s = a +:+ String c b ∧
         str_contains c a = false.
Proof.
  induction s as [|x s IH]; [done|]. simpl.
  destruct (Ascii.eqb_spec x c) as [->|Hx].
  - intros _. exists "", s. by destruct s.
  - intros (a & b & Hsplit & -> & Ha)%IH.
    exists (String x a), b. rewrite Hsplit. simpl.
    apply Ascii.eqb_neq in Hx. by rewrite Hx.
Qed.

Lemma count_char_app c (a b : string) :
  count_char c (a +:+ b) = (count_char c a + count_char c b)%nat.
Proof.
  induction a as [|x a IH]; [done|].
  rewrite append_cons. simpl. rewrite IH. lia.
Qed.

Lemma cons_head_length a l : l ≠ [] → length (cons_head a l) = length l.
Proof. by destruct l. Qed.

Lemma str_split_nonempty sep (s : string) n : str_split sep s n ≠ [].
Proof.
  revert n. induction s as [|x s IH]; intros [|n]; simpl; try done.
  destruct (Ascii.eqb x sep); [done|].
  specialize (IH (S n)). by destruct (str_split sep s (S n)).
Qed.

Lemma str_split_length sep (s : string) n :
  (length (str_split sep s n) ≤ S (count_char sep s))%nat.
Proof.
  revert n. induction s as [|x s IH]; intros [|n]; simpl; try lia.
  destruct (Ascii.eqb x sep); simpl.
  - specialize (IH n). lia.
  - rewrite cons_head_length by apply str_split_nonempty.
    apply IH.
Qed.

Lemma str_split_absent_parts c sep (s : string) n :
  str_contains c s = false →
  Forall (λ part, str_contains c part = false) (str_split sep s n).
Proof.
  revert n. induction s as [|x s IH]; intros n; simpl.
  - by repeat constructor.
  - destruct (Ascii.eqb x c) eqn:Hx; [done|]. intros Hs.
    destruct n as [|n].
    + repeat constructor. simpl. by rewrite Hx.
    + destruct (Ascii.eqb x sep).
      * constructor; [done|]. by apply IH.
      * specialize (IH (S n) Hs).
        destruct (str_split sep s (S n)) as [|h t]; simpl.
        -- repeat constructor. simpl. by rewrite Hx.
        -- inversion IH; subst. constructor; [|done]. simpl. by rewrite Hx.
Qed.

Lemma result_mapM_Forall2 {A B : Type} (f : A → result B) l l' :
  result_mapM f l = Ok l' → Forall2 (λ x y, f x = Ok y) l l'.
Proof.
  revert l'. induction l as [|x l IH]; intros l'; simpl.
  - intros [= <-]. constructor.
  - destruct (f x) as [y|] eqn:Hx; [|done]. cbn.
    destruct (result_mapM f l) as [ys|]; [|done]. cbn.
    intros [= <-]. constructor; [done|]. by apply IH.
Qed.

Lemma lstrip_contains c (s : string) :
  str_contains c s = false → str_contains c (lstrip s) = false.
Proof.
  induction s as [|x s IH]; [done|]. simpl.
  destruct (Ascii.eqb x c) eqn:Hx; [done|]. intros Hs.
  destruct (is_space x); [by apply IH|]. simpl. by rewrite Hx.
Qed.

Lemma rstrip_contains c (s : string) :
  str_contains c s = false → str_contains c (rstrip s) = false.
Proof.
  induction s as [|x s IH]; [done|]. simpl.
  destruct (Ascii.eqb x c) eqn:Hx; [done|]. intros Hs.
  specialize (IH Hs).
  destruct (rstrip s) as [|y r].
  - destruct (is_space x); [done|]. simpl. by rewrite Hx.
  - simpl in *. by rewrite Hx.
Qed.

Lemma is_digit_value a : is_digit a = true → 0 ≤ digit_value a.
Proof.
  unfold is_digit, digit_value. intros [H _]%andb_true_iff.
  apply N.leb_le in H. lia.
Qed.

Lemma int_digits_nonneg (s : string) acc after_digit n :
  0 ≤ acc → int_digits s acc after_digit = Some n → 0 ≤ n.
Proof.
  revert acc after_digit. induction s as [|a s IH]; intros acc b Hacc; simpl.
  - destruct b; [|done]. by intros [= <-].
  - destruct (is_digit a) eqn:Ha.
    + apply IH. pose proof (is_digit_value a Ha). lia.
    + destruct (Ascii.eqb a "_"); [|done]. destruct b; [|done]. by apply IH.
Qed.

Lemma int_nonneg (s : string) n :
  str_contains "-" s = false → int s = Ok n → 0 ≤ n.
Proof.
  intros Hs. unfold int.
  pose proof (rstrip_contains "-" _ (lstrip_contains "-" s Hs)) as Hbody.
  destruct (count_digits (rstrip (lstrip s)) <=? int_max_str_digits)%nat.
  2: { by destruct (match rstrip (lstrip s) with "" => _ | _ => _ end). }
  destruct (rstrip (lstrip s)) as [|a d] eqn:Hb; [done|].
  destruct (Ascii.eqb_spec a "-") as [->|Hm]; [done|].
  assert (Hd : ∀ t, int_digits t 0 false = Some n → 0 ≤ n).
  { intros t. by apply int_digits_nonneg. }
  destruct a as [[] [] [] [] [] [] [] []]; try done;
    (destruct (int_digits _ 0 false) eqn:Hi; [|done]; intros [= <-];
     by eapply Hd).
Qed.

Lemma int_error (s : string) e : int s = Err e → ∃ msg, e = ValueError msg.
Proof.
  unfold int. destruct (match rstrip (lstrip s) with "" => _ | _ => _ end).
  - destruct (_ <=? _)%nat; [done|]. intros [= <-]. eauto.
  - intros [= <-]. eauto.
Qed.

Lemma result_mapM_int_error l e :
  result_mapM int l = Err e → ∃ msg, e = ValueError msg.
Proof.
  induction l as [|x l IH]; [done|]. simpl.
  destruct (int x) as [y|e'] eqn:Hx; cbn.
  - destruct (result_mapM int l) as [ys|e'']; cbn; [done|].
    intros [= <-]. by apply IH.
  - intros [= <-]. by eapply int_error.
Qed.

(** How [Version] cuts its argument: [p1] and the build at the first
    [+], then the core and the prerelease at the first [-] of [p1]; the
    two unpackings cannot fail. *)
Lemma Version_init_cut (v : string) :
  ∃ p1 bld core pre,
    (str_contains "+" v = true ∧ v = p1 +:+ String "+" bld
       ∨ str_contains "+" v = false ∧ v = p1 ∧ bld = "") ∧
    str_contains "+" p1 = false ∧
    (str_contains "-" p1 = true ∧ p1 = core +:+ String "-" pre
       ∨ str_contains "-" p1 = false ∧ p1 = core ∧ pre = "") ∧
    str_contains "-" core = false ∧
    Version_init v =
      result_bind (result_mapM int (str_split "." core 2))
        (λ parts,
           match parts with
           | [major; minor; patch] =>
               Ok {| _version := v; _build := bld; _prerelease := pre;
                     _major := major; _minor := minor; _patch := patch |}
           | _ => Err (ValueError "unpack")
           end).
Proof.
  unfold Version_init.
  assert (Hplus : ∃ p1 bld,
            (str_contains "+" v = true ∧ v = p1 +:+ String "+" bld
               ∨ str_contains "+" v = false ∧ v = p1 ∧ bld = "") ∧
            str_contains "+" p1 = false ∧
            (if str_contains "+" v then unpack2 (str_split "+" v 1)
             else Ok (v, "")) = Ok (p1, bld)).
  { destruct (str_contains "+" v) eqn:Hv.
    - destruct (split_two _ _ Hv) as (a & b & -> & -> & Ha).
      exists a, b. auto.
    - exists v, "". auto. }
  destruct Hplus as (p1 & bld & Hv & Hp1 & ->).
  assert (Hdash : ∃ core pre,
            (str_contains "-" p1 = true ∧ p1 = core +:+ String "-" pre
               ∨ str_contains "-" p1 = false ∧ p1 = core ∧ pre = "") ∧
            str_contains "-" core = false ∧
            (if str_contains "-" p1 then unpack2 (str_split "-" p1 1)
             else Ok (p1, "")) = Ok (core, pre)).
  { destruct (str_contains "-" p1) eqn:Hd.
    - destruct (split_two _ _ Hd) as (a & b & -> & -> & Ha).
      exists a, b. auto.
    - exists p1, "". auto. }
  destruct Hdash as (core & pre & Hd & Hcore & Hcut).
  exists p1, bld, core, pre. repeat split; try done.
  cbn. rewrite Hcut. cbn.
  destruct (result_mapM int (str_split "." core 2)) as [parts|]; [|done].
  cbn. by destruct parts as [|a [|b [|c [|]]]].
Qed.

Lemma Forall2_length_3 {A B : Type} (P : A → B → Prop) l a b c :
  Forall2 P l [a; b; c] → ∃ x y z, l = [x; y; z] ∧ P x a ∧ P y b ∧ P z c.
Proof.
  intros H. inversion H as [|x ? l1 ? Hx H1]; subst.
  inversion H1 as [|y ? l2 ? Hy H2]; subst.
  inversion H2 as [|z ? l3 ? Hz H3]; subst.
  inversion H3; subst. eauto 10.
Qed.

(** X11: a version string with fewer than two dots cannot be parsed:
    [Version] raises [ValueError], whatever else the string holds. *)
Theorem Version_needs_two_dots (v : string) :
  (count_char "." v < 2)%nat →
  ∃ msg, Version_init v = Err (ValueError msg).
Proof.
  intros Hdots.
  destruct (Version_init_cut v)
    as (p1 & bld & core & pre & Hv & _ & Hd & _ & ->).
  assert (Hcore : (count_char "." core ≤ count_char "." v)%nat).
  { assert (count_char "." core ≤ count_char "." p1)%nat.
    { destruct Hd as [[_ ->]|(_ & -> & _)]; [|done].
      rewrite count_char_app. lia. }
    destruct Hv as [[_ ->]|(_ & -> & _)]; [|done].
    rewrite count_char_app. lia. }
  destruct (result_mapM int (str_split "." core 2)) as [parts|e] eqn:Hparts.
  - apply result_mapM_Forall2, Forall2_length in Hparts.
    pose proof (str_split_length "." core 2) as Hlen.
    simpl. destruct parts as [|a [|b [|c [|]]]]; eauto.
    simpl in Hparts. lia.
  - apply result_mapM_int_error in Hparts as [msg ->]. simpl. eauto.
Qed.

(** X12: the components of a parsed [Version] are never negative: the
    core ends before the first [-] and the first [+], so no component
    can carry a sign. *)
Theorem Version_components_nonnegative (v : string) (ver : Version) :
  Version_init v = Ok ver →
  0 ≤ major ver ∧ 0 ≤ minor ver ∧ 0 ≤ patch ver.
Proof.
  destruct (Version_init_cut v)
    as (p1 & bld & core & pre & _ & _ & _ & Hcore & ->).
  destruct (result_mapM int (str_split "." core 2)) as [parts|e] eqn:Hparts;
    [|done].
  simpl. destruct parts as [|a [|b [|c [|]]]]; try done. intros [= <-].
  apply result_mapM_Forall2, Forall2_length_3 in Hparts
    as (x & y & z & Hsplit & Hx & Hy & Hz).
  pose proof (str_split_absent_parts "-" "." core 2 Hcore) as Hno.
  rewrite Hsplit in Hno.
  apply Forall_cons in Hno as [Hnx Hno].
  apply Forall_cons in Hno as [Hny Hno].
  apply Forall_cons in Hno as [Hnz _].
  unfold major, minor, patch. simpl.
  split; [exact (int_nonneg x a Hnx Hx)|].
  split; [exact (int_nonneg y b Hny Hy)|exact (int_nonneg z c Hnz Hz)].
Qed.

(** X13: for every string that [Version] accepts, [str] gives the string
    back; a prerelease, when there is one, is not empty and holds no
    [+]; a build, when there is one, is not empty and is everything
    after the first [+] of the string. *)
Theorem Version_parts (v : string) (ver : Version) :
  Version_init v = Ok ver →
  Version_str ver = v ∧
  (∀ t, prerelease ver = Some t → t ≠ "" ∧ str_contains "+" t = false) ∧
  (∀ b, build ver = Some b →
        b ≠ "" ∧
        ∃ p1, v = p1 +:+ String "+" b ∧ str_contains "+" p1 = false).
Proof.
  destruct (Version_init_cut v)
    as (p1 & bld & core & pre & Hv & Hp1 & Hd & _ & ->).
  destruct (result_mapM int (str_split "." core 2)) as [parts|e]; [|done].
  simpl. destruct parts as [|a [|b [|c [|]]]]; try done. intros [= <-].
  split; [done|]. split.
  - intros t. unfold prerelease. simpl.
    destruct (String.eqb_spec pre "") as [->|Hpre]; [done|].
    simpl. intros [= <-]. split; [done|].
    destruct Hd as [[_ ->]|(_ & _ & ->)]; [|done].
    rewrite str_contains_app in Hp1.
    apply orb_false_iff in Hp1 as [_ Hp1]. simpl in Hp1.
    by destruct (Ascii.eqb "-" "+").
  - intros b'. unfold build. simpl.
    destruct (String.eqb_spec bld "") as [->|Hbld]; [done|].
    simpl. intros [= <-]. split; [done|].
    destruct Hv as [[_ ->]|(_ & _ & ->)]; [|done]. eauto.
Qed.

End VersionInvariants.

(** X11 (witness): [1.2] has one dot. *)
Lemma Version_needs_two_dots_witness :
  (count_char "." "1.2" < 2)%nat ∧
  ∃ msg, Client.Version_init "1.2" = Err (ValueError msg).
Proof.
  assert (H : (count_char "." "1.2" < 2)%nat) by (vm_compute; lia).
  split; [exact H|]. exact (Version_needs_two_dots "1.2" H).
Defined.

(** X12 (witness): the components of [4.0.12-rc.1]. *)
Lemma Version_components_nonnegative_witness :
  ∃ ver,
    Client.Version_init "4.0.12-rc.1" = Ok ver ∧
    0 ≤ Client.major ver ∧ 0 ≤ Client.minor ver ∧ 0 ≤ Client.patch ver.
Proof.
  eexists. split; [reflexivity|].
  apply (Version_components_nonnegative "4.0.12-rc.1"). reflexivity.
Defined.

(** X13 (witness): the parts of [2.11.0-beta-2+exp.sha+5]. *)
Lemma Version_parts_witness :
  ∃ ver,
    Client.Version_init "2.11.0-beta-2+exp.sha+5" = Ok ver ∧
    Client.Version_str ver = "2.11.0-beta-2+exp.sha+5" ∧
    Client.prerelease ver = Some "beta-2" ∧
    Client.build ver = Some "exp.sha+5" ∧
    (∀ t, Client.prerelease ver = Some t →
          t ≠ "" ∧ str_contains "+" t = false).
Proof.
  eexists. split; [reflexivity|].
  destruct (Version_parts "2.11.0-beta-2+exp.sha+5" _ eq_refl)
    as (Hstr & Hpre & _).
  split; [exact Hstr|]. split; [reflexivity|]. split; [reflexivity|].
  exact Hpre.
Defined.

Section BodiesAndPaths.
Import Enums ExternalDBs.

Lemma tri_state_inj {T : Type} (enc : T → json) (a b : Nullable T) :
  (∀ x y, enc x = enc y → x = y) → (∀ x, enc x ≠ JNull) →
  tri_state enc a = tri_state enc b → a = b.
Proof.
  intros Hinj Hnull.
  destruct a as [[|x]|], b as [[|y]|]; simpl; intros [=]; try done.
  - by destruct (Hnull y).
  - by destruct (Hnull x).
  - by rewrite (Hinj x y).
Qed.

Lemma entity_type_values_inj (ts ts' : list EntityTypes) :
  (λ t, JStr (value t)) <$> ts = (λ t, JStr (value t)) <$> ts' → ts = ts'.
Proof.
  revert ts'. induction ts as [|t ts IH]; intros [|t' ts']; try done.
  rewrite !fmap_cons. intros [= Ht Hts]. f_equal; [|by apply IH].
  by destruct t, t'.
Qed.

(** X14: the body of [edit] loses nothing: two calls build the same body
    only when they were given the same entity types and the same three
    nullable arguments. In particular leaving a field out, clearing it
    and setting it always give three different bodies. *)
Theorem edit_form_injective
    (entity_types entity_types' : option (list EntityTypes))
    (web_page_url web_page_url' : Nullable string)
    (timeout timeout' attempts attempts' : Nullable Z) :
  edit_form entity_types web_page_url timeout attempts
    = edit_form entity_types' web_page_url' timeout' attempts' →
  entity_types = entity_types' ∧ web_page_url = web_page_url' ∧
  timeout = timeout' ∧ attempts = attempts'.
Proof.
  intros Heq.
  destruct (edit_form_lookups entity_types web_page_url timeout attempts)
    as (He & Hu & Ht & Ha).
  destruct (edit_form_lookups entity_types' web_page_url' timeout' attempts')
    as (He' & Hu' & Ht' & Ha').
  cbv zeta in *. rewrite Heq in He, Hu, Ht, Ha.
  rewrite He' in He. rewrite Hu' in Hu. rewrite Ht' in Ht. rewrite Ha' in Ha.
  repeat split.
  - destruct entity_types as [ts|], entity_types' as [ts'|]; simpl in He;
      try done.
    injection He as He. by rewrite (entity_type_values_inj ts' ts).
  - symmetry. apply (tri_state_inj JStr); [by intros ?? [=]|done|done].
  - symmetry. apply (tri_state_inj JInt); [by intros ?? [=]|done|done].
  - symmetry. apply (tri_state_inj JInt); [by intros ?? [=]|done|done].
Qed.

End BodiesAndPaths.

(** X14 (witness): two calls with the same arguments. *)
Lemma edit_form_injective_witness :
  ExternalDBs.edit_form (Some [File]) (Some Null) None (Some (Val 3))
    = ExternalDBs.edit_form (Some [File]) (Some Null) None (Some (Val 3)) ∧
  Some [File] = Some [File] ∧ Some (Null (T := string)) = Some Null ∧
  (None : Nullable Z) = None ∧ Some (Val 3) = Some (Val 3).
Proof.
  split; [reflexivity|].
  exact (edit_form_injective (Some [File]) (Some [File]) (Some Null)
           (Some Null) None None (Some (Val 3)) (Some (Val 3)) eq_refl).
Defined.

Section Paths.
Import Entities.

Lemma hex_digit_inj (x y : N) :
  (x < 16)%N → (y < 16)%N → hex_digit x = hex_digit y → x = y.
Proof.
  intros Hx Hy.
  assert (Hcases : ∀ z, (z < 16)%N →
            z ∈ [0; 1; 2; 3; 4; 5; 6; 7; 8; 9; 10; 11; 12; 13; 14; 15]%N).
  { intros z Hz.
    assert (z = 0 ∨ z = 1 ∨ z = 2 ∨ z = 3 ∨ z = 4 ∨ z = 5 ∨ z = 6 ∨ z = 7
            ∨ z = 8 ∨ z = 9 ∨ z = 10 ∨ z = 11 ∨ z = 12 ∨ z = 13 ∨ z = 14
            ∨ z = 15)%N as H by lia.
    repeat (destruct H as [->|H];
            [repeat first [apply list_elem_of_here|apply list_elem_of_further]|]).
    subst. repeat first [apply list_elem_of_here|apply list_elem_of_further]. }
  pose proof (Hcases x Hx) as Hxs. pose proof (Hcases y Hy) as Hys.
  repeat (apply elem_of_cons in Hxs as [->|Hxs]);
    try (by apply elem_of_nil in Hxs);
    repeat (apply elem_of_cons in Hys as [->|Hys]);
    try (by apply elem_of_nil in Hys); by intros [=].
Qed.

Lemma hex_fixed_length width n acc :
  String.length (hex_fixed width n acc) = (width + String.length acc)%nat.
Proof.
  revert n acc. induction width as [|w IH]; intros n acc; simpl; [done|].
  rewrite IH. simpl. lia.
Qed.

Lemma hex_fixed_inj width : ∀ a b acc acc',
  String.length acc = String.length acc' →
  hex_fixed width a acc = hex_fixed width b acc' →
  (a mod 16 ^ N.of_nat width = b mod 16 ^ N.of_nat width)%N ∧ acc = acc'.
Proof.
  induction width as [|w IH]; intros a b acc acc' Hlen Heq.
  - simpl in *. by rewrite !N.mod_1_r.
  - simpl in Heq. apply IH in Heq as [Hhigh Hacc]; [|simpl; lia].
    injection Hacc as Hd ->. split; [|done].
    apply hex_digit_inj in Hd;
      [|change 15%N with (N.ones 4); rewrite N.land_ones;
        by apply N.mod_lt..].
    change 15%N with (N.ones 4) in Hd. rewrite !N.land_ones in Hd.
    rewrite !N.shiftr_div_pow2 in Hhigh.
    change (2 ^ 4)%N with 16%N in *.
    rewrite Nat2N.inj_succ, N.pow_succ_r'.
    rewrite !N.Div0.mod_mul_r. by rewrite Hd, Hhigh.
Qed.

Ltac take_char h Hlen :=
  destruct h as [|? h]; [discriminate Hlen|];
  simpl in Hlen; apply Nat.succ_inj in Hlen.

Lemma dashed_inj (h h' : string) :
  String.length h = 32%nat → String.length h' = 32%nat →
  String.substring 0 8 h +:+ "-" +:+ String.substring 8 4 h +:+ "-" +:+
  String.substring 12 4 h +:+ "-" +:+ String.substring 16 4 h +:+ "-" +:+
  String.substring 20 12 h
  = String.substring 0 8 h' +:+ "-" +:+ String.substring 8 4 h' +:+ "-" +:+
    String.substring 12 4 h' +:+ "-" +:+ String.substring 16 4 h' +:+ "-" +:+
    String.substring 20 12 h' →
  h = h'.
Proof.
  intros Hlen Hlen'.
  do 32 take_char h Hlen. destruct h; [|discriminate Hlen].
  do 32 take_char h' Hlen'. destruct h'; [|discriminate Hlen'].
  cbv [String.substring String.append].
  intros H. injection H. intros. subst. reflexivity.
Qed.

Lemma UUID_str_inj (a b : UUID) :
  (uuid_int a < 2 ^ 128)%N → (uuid_int b < 2 ^ 128)%N →
  UUID_str a = UUID_str b → a = b.
Proof.
  intros Ha Hb Heq. unfold UUID_str in Heq. cbv zeta in Heq.
  apply dashed_inj in Heq; [|by rewrite hex_fixed_length..].
  apply hex_fixed_inj in Heq as [Heq _]; [|done].
  change (16 ^ N.of_nat 32)%N with (2 ^ 128)%N in Heq.
  rewrite !N.mod_small in Heq by done.
  destruct a, b. simpl in Heq. by subst.
Qed.

Lemma append_cancel_l (p s t : string) : p +:+ s = p +:+ t → s = t.
Proof.
  induction p as [|x p IH]; [done|].
  rewrite !append_cons. intros [=]. by apply IH.
Qed.

Variable server : request → result answer.
Variable datetime : Type.
Variable rfc3339_timestamp : datetime → string.

(** X15: requests of [view] for different entities go to different
    paths: when two calls log the same request, they were made for the
    same uuid. A uuid is a 128-bit number. *)
Theorem view_path_identifies_entity
    (a b : UUID) sections sections' (forecast_at forecast_at' : option datetime)
    facts facts' log :
  (uuid_int a < 2 ^ 128)%N → (uuid_int b < 2 ^ 128)%N →
  (view server datetime rfc3339_timestamp a sections forecast_at facts log).2
    = (view server datetime rfc3339_timestamp b sections' forecast_at' facts'
         log).2 →
  a = b.
Proof.
  intros Ha Hb. unfold view. rewrite !do_get_then. simpl.
  intros Hlog. apply app_inv_head in Hlog.
  pose proof (f_equal (λ l, req_path <$> l) Hlog) as Hpath.
  cbn [fmap list_fmap req_path get_request] in Hpath.
  apply (inj (λ p, [p])) in Hpath.
  apply (UUID_str_inj a b Ha Hb).
  by apply (append_cancel_l "/observable/entities/").
Qed.

End Paths.

(** X15 (witness): two calls for the same entity. *)
Lemma view_path_identifies_entity_witness :
  (uuid_int sample_uuid < 2 ^ 128)%N ∧
  (Entities.view empty_server unit (λ _, "") sample_uuid None None None []).2
    = (Entities.view empty_server unit (λ _, "") sample_uuid None None None
         []).2 ∧
  sample_uuid = sample_uuid.
Proof.
  assert (H : (uuid_int sample_uuid < 2 ^ 128)%N) by (vm_compute; done).
  split; [exact H|]. split; [reflexivity|].
  exact (view_path_identifies_entity empty_server unit (λ _, "") sample_uuid
           sample_uuid None None None None None None [] H H eq_refl).
Defined.

Section RequestsSent.
Import Enums Pagination Entities.

Variable server : request → result answer.
Variable datetime : Type.
Variable rfc3339_timestamp : datetime → string.

(** Of the eleven key expressions of the literal nine name a member of
    [AttributeNames] and two do not. *)
Lemma kebab_literal_keys :
  filter (λ attr, is_ok (AttributeNames_getattr attr))
    _attr_value_kebab_entries.*1
    = ["Size"; "Class"; "Sectors"; "DisplayNames"; "Names"; "NodeRoles";
       "IsIoC"; "IsTrusted"; "IsDGA"] ∧
  filter (λ attr, negb (is_ok (AttributeNames_getattr attr)))
    _attr_value_kebab_entries.*1
    = ["MalwareFamilyAliases"; "IsMalicious"].
Proof. split; reflexivity. Qed.

(** The members of [AttributeNames] that are the key of no entry. *)
Lemma kebab_literal_missing :
  filter (λ a, negb (existsb (String.eqb (name a)) _attr_value_kebab_entries.*1))
    members
    = [RegistrationCountry; MalwareClasses; MalwareFamilies;
       RelatedMalwareFamilies; IsDelegated; Statuses; ASN;
       RegionalInternetRegistry; ThreatCategory; RelatedThreatCategory;
       MalwareNames; Campaigns; ThreatActors; AffectedCountries;
       ExploitedVulnerabilities; TargetedSectors; PotentialDamage; Platforms;
       Tactics; Techniques].
Proof. reflexivity. Qed.

(** C3 (fails on the code): evaluating the literal
    [_attr_value_kebab_converters] raises [AttributeError] at the key
    [AttributeNames.MalwareFamilyAliases], which names no member of the
    enumeration, so for every member of [AttributeNames]
    [forecast_attribute_values] raises before any path is built and
    issues no request. *)
Theorem forecast_attribute_values_raises
    entity_uuid (attr_name : AttributeNames) (forecast_at : option datetime)
    log :
  _attr_value_kebab_converters
    = Err (AttributeError "AttributeNames" "MalwareFamilyAliases") ∧
  _convert_attribute_name_kebab attr_name
    = Err (AttributeError "AttributeNames" "MalwareFamilyAliases") ∧
  forecast_attribute_values server datetime rfc3339_timestamp entity_uuid
    attr_name forecast_at log
    = (Err (AttributeError "AttributeNames" "MalwareFamilyAliases"), log).
Proof. repeat split. Qed.


(** The five parameters of [aggregate], whatever the arguments. *)
Lemma aggregate_params_lookups
    entity_uuids (sections : option (list EntityAggregateSections))
    (forecast_at : option datetime) (cursor : option Cursor)
    (limit : option Z) :
  let params :=
    aggregate_params datetime rfc3339_timestamp entity_uuids sections
      forecast_at cursor limit in
  params !! "uuid" = Some (PUuids entity_uuids) ∧
  params !! "section" = (λ ss, PStrs (value <$> ss)) <$> sections ∧
  params !! "forecastAt" = (λ t, PStr (rfc3339_timestamp t)) <$> forecast_at ∧
  params !! "cursor"
    = (match cursor with
       | Some c => if String.eqb c "" then None else Some (PStr c)
       | None => None
       end) ∧
  params !! "limit"
    = (match limit with
       | Some n => if n =? 0 then None else Some (PInt n)
       | None => None
       end).
Proof.
  unfold aggregate_params, truthy, string_truthy, Z_truthy.
  destruct sections, forecast_at, cursor as [c|], limit as [n|];
    try destruct (String.eqb c ""); try destruct (n =? 0);
    repeat split; reflexivity.
Qed.

(** C4, as amended: there is no client-side validation. [edit] sends
    every argument that is not [None] unchanged in the body of its
    PATCH, whatever the integers given for the timeout and the attempts
    count, inside the documented ranges or not; [aggregate] sends the
    uuid list unchanged, empty or not, and every other argument that is
    given, except a cursor that is the empty string and a limit that is
    0, which are left out like [None]. The request is always issued,
    nothing else is in it, and the only errors are those of the
    server. *)
Theorem no_client_side_validation
    db_uuid tag (entity_types : option (list EntityTypes))
    (web_page_url : Nullable string)
    (task_execution_timeout task_execution_attempts_count : Nullable Z)
    (entity_uuids : list UUID) (sections : option (list EntityAggregateSections))
    (forecast_at : option datetime) (cursor : option Cursor)
    (limit : option Z) log :
  (∃ req form,
     ExternalDBs.edit server db_uuid tag entity_types web_page_url
       task_execution_timeout task_execution_attempts_count log
       = (result_map (λ _, tt) (server req), log ++ [req]) ∧
     req_method req = PATCH ∧
     req_path req = "/enrichment/external-dbs/" +:+ UUID_str db_uuid ∧
     req_tag req = Some tag ∧
     req_json req = Some form ∧
     form !! "entityTypes"
       = (λ ts, JList ((λ t, JStr (value t)) <$> ts)) <$> entity_types ∧
     form !! "webPageURL" = tri_state JStr web_page_url ∧
     form !! "taskExecutionTimeout" = tri_state JInt task_execution_timeout ∧
     form !! "taskExecutionAttemptsCount"
       = tri_state JInt task_execution_attempts_count ∧
     dom form
       = key_if_given "entityTypes" entity_types
         ∪ key_if_given "webPageURL" web_page_url
         ∪ key_if_given "taskExecutionTimeout" task_execution_timeout
         ∪ key_if_given "taskExecutionAttemptsCount"
             task_execution_attempts_count) ∧
  (∃ req,
     aggregate server datetime rfc3339_timestamp entity_uuids sections
       forecast_at cursor limit log
       = (result_map
            (λ a, mkPage (Http.do_get server)
                    (response_of "/observable/entities" a)
                    Build_EntityAggregateView)
            (server req),
          log ++ [req]) ∧
     req_method req = GET ∧
     req_path req = "/observable/entities" ∧
     req_params req !! "uuid" = Some (PUuids entity_uuids) ∧
     req_params req !! "section"
       = (λ ss, PStrs (value <$> ss)) <$> sections ∧
     req_params req !! "forecastAt"
       = (λ t, PStr (rfc3339_timestamp t)) <$> forecast_at ∧
     req_params req !! "cursor"
       = (match cursor with
          | Some c => if String.eqb c "" then None else Some (PStr c)
          | None => None
          end) ∧
     req_params req !! "limit"
       = (match limit with
          | Some n => if n =? 0 then None else Some (PInt n)
          | None => None
          end) ∧
     dom (req_params req)
       = {["uuid"]} ∪ key_if_given "section" sections
         ∪ key_if_given "forecastAt" forecast_at
         ∪ key_if_truthy "cursor" cursor ∪ key_if_truthy "limit" limit).
Proof.
  split.
  - eexists _, _. split; [apply edit_run|]. simpl.
    do 4 (split; [done|]).
    destruct (edit_form_lookups entity_types web_page_url
                task_execution_timeout task_execution_attempts_count)
      as (He & Hu & Ht & Hc).
    do 4 (split; [done|]).
    unfold ExternalDBs.edit_form. cbv zeta.
    rewrite !dom_key_if_given, dom_empty_L.
    by rewrite (left_id_L ∅ (∪)).
  - eexists. split; [apply aggregate_run|]. simpl.
    do 2 (split; [done|]).
    destruct (aggregate_params_lookups entity_uuids sections forecast_at
                cursor limit) as (H1 & H2 & H3 & H4 & H5).
    do 5 (split; [done|]).
    unfold aggregate_params. cbv zeta.
    by rewrite !dom_key_if_truthy, !dom_key_if_given, dom_singleton_L.
Qed.

End RequestsSent.

(** C4 (counterexample): [aggregate] is given the cursor [""] and the
    limit [0]; the request it issues has neither [cursor] nor [limit]:
    the two values are not forwarded. *)
Lemma falsy_cursor_and_limit_not_forwarded :
  ∃ req,
    (Entities.aggregate empty_server unit (λ _, "") [sample_uuid] None None
       (Some "") (Some 0) []).2 = [req] ∧
    req_params req !! "uuid" = Some (PUuids [sample_uuid]) ∧
    req_params req !! "cursor" = None ∧
    req_params req !! "limit" = None.
Proof. eexists. repeat split. Qed.
